(** * Node-dump reformatters of src/backend/nodes/print.c

    A shallow embedding of [format_node_dump] and [pretty_format_node_dump]
    and the properties of their output.

    Conventions of the embedding.
    - A C [int] is a [Z]. On an input of [n] characters no value of an
      [int] variable leaves [-1 .. max (3 * n + 3) 79]
      ([PrettyFacts.reachable_int_range], [WrapFacts.wrap_reachable_pos]),
      so the embedding is exact for every input of fewer than
      [INT_MAX / 3] characters.
    - The input [dump] is the list of characters in memory; reading at or
      past its end yields the terminating NUL ([dump_at]).
    - [char line[LINELEN + 1]] is a map from index to character ([buffer]).
      It is a local array without initialiser: its first contents are the
      Section variable [line0], about which nothing is assumed.
    - [StringInfoData str] is the list of the lines appended so far, one per
      call of [appendStringInfo(&str, "%s\n", line)]; [text_of] gives the
      characters of [str.data]. *)

From Stdlib Require Import ZArith Ascii String List Bool Lia.
Import ListNotations.

#[local] Open Scope char_scope.
#[local] Open Scope Z_scope.

(** ** Characters, input and line buffer *)

Definition NUL : ascii := Ascii.zero.
Definition newline : ascii := ascii_of_nat 10.

(** [dump[i]] *)
Definition dump_at (dump : list ascii) (i : Z) : ascii :=
  nth (Z.to_nat i) dump NUL.

Definition buffer : Type := Z -> ascii.

(** [line[k] = c] *)
Definition store (line : buffer) (k : Z) (c : ascii) : buffer :=
  fun x => if x =? k then c else line x.

(** The characters [printf]'s [%s] reads from a buffer of [n] cells starting
    at index [k]: all up to the first NUL. *)
Fixpoint c_str_from (n : nat) (line : buffer) (k : Z) : list ascii :=
  match n with
  | O => []
  | S n' =>
      if Ascii.eqb (line k) NUL then []
      else line k :: c_str_from n' line (k + 1)
  end.

(** ** format_node_dump *)

Module Wrap.

Definition LINELEN : Z := 78.

Definition c_str (line : buffer) : list ascii :=
  c_str_from (Z.to_nat (LINELEN + 1)) line 0.

(** [appendStringInfo(&str, "%s\n", line)] *)
Definition append_line (str : list (list ascii)) (line : buffer)
  : list (list ascii) :=
  str ++ [c_str line].

(** [for (j = 0; j < LINELEN && dump[i] != '\0'; i++, j++) line[j] = dump[i];]
    entered with [j] already set; [n] bounds the iterations left
    ([LINELEN - j], see [WrapFacts.copy_loop_spec]). *)
Fixpoint copy_loop (n : nat) (dump : list ascii) (i j : Z) (line : buffer)
  : Z * Z * buffer :=
  match n with
  | O => (i, j, line)
  | S n' =>
      if (j <? LINELEN) && negb (Ascii.eqb (dump_at dump i) NUL)
      then copy_loop n' dump (i + 1) (j + 1) (store line j (dump_at dump i))
      else (i, j, line)
  end.

(** [for (k = j - 1; k > 0; k--) if (line[k] == ' ') break;]
    entered with [k] already set; [n] bounds the iterations left ([k], see
    [WrapFacts.scan_back_spec]). *)
Fixpoint scan_back (n : nat) (line : buffer) (k : Z) : Z :=
  match n with
  | O => k
  | S n' =>
      if k >? 0
      then if Ascii.eqb (line k) " " then k else scan_back n' line (k - 1)
      else k
  end.

(** State at the top of the [for (;;)] loop; [j] is set by the copy loop. *)
Record state : Type := mkState {
  i : Z;
  line : buffer;
  str : list (list ascii)
}.

(** What one pass through the body of [for (;;)] does. *)
Inductive outcome : Type :=
| Continue (s : state)                 (* back to the top of the loop *)
| Break (j : Z) (s : state).           (* [break] on [dump[i] == '\0'] *)

Definition iter (dump : list ascii) (s : state) : outcome :=
  let '(i1, j1, line1) :=
    copy_loop (Z.to_nat LINELEN) dump (i s) 0 (line s) in
  if Ascii.eqb (dump_at dump i1) NUL then
    Break j1 (mkState i1 line1 (str s))
  else
    let '(i2, j2) :=
      if Ascii.eqb (dump_at dump i1) " " then
        (* ok to break at adjacent space *)
        (i1 + 1, j1)
      else
        let k := scan_back (Z.to_nat j1) line1 (j1 - 1) in
        if k >? 0 then
          (* back up; will reprint all after space *)
          (i1 - (j1 - k - 1), k)
        else (i1, j1) in
    let line2 := store line1 j2 NUL in
    Continue (mkState i2 line2 (append_line (str s) line2)).

(** The pass from [s] finds no space to break at: the copy loop filled the
    line, [dump[i]] is neither the end nor a space, and the backward scan
    ran down to [k == 0]. *)
Definition no_space_found (dump : list ascii) (s : state) : bool :=
  let '(i1, j1, line1) :=
    copy_loop (Z.to_nat LINELEN) dump (i s) 0 (line s) in
  negb (Ascii.eqb (dump_at dump i1) NUL)
  && negb (Ascii.eqb (dump_at dump i1) " ")
  && negb (scan_back (Z.to_nat j1) line1 (j1 - 1) >? 0).

(** The [for (;;)] loop, at most [fuel] passes. *)
Fixpoint loop (fuel : nat) (dump : list ascii) (s : state)
  : option (Z * state) :=
  match fuel with
  | O => None
  | S fuel' =>
      match iter dump s with
      | Break j s' => Some (j, s')
      | Continue s' => loop fuel' dump s'
      end
  end.

(** After the loop: [if (j > 0) { line[j] = '\0'; appendStringInfo(...); }]
    and [return str.data]. *)
Definition finish (r : Z * state) : list (list ascii) :=
  let '(j, s) := r in
  if j >? 0 then append_line (str s) (store (line s) j NUL) else str s.

Section Run.

Variable line0 : buffer.

Definition init : state := mkState 0 line0 [].

(** Every pass but the last moves the cursor by two characters at least, so
    [length dump + 1] passes are enough ([WrapFacts.wrap_loop_terminates]). *)
Definition format_node_dump (dump : list ascii) : option (list (list ascii)) :=
  option_map finish (loop (S (length dump)) dump init).

(** States at the top of the [for (;;)] loop in the run on [dump]. *)
Inductive reachable (dump : list ascii) : state -> Prop :=
| reach_init : reachable dump init
| reach_iter s s' :
    reachable dump s -> iter dump s = Continue s' -> reachable dump s'.

End Run.

End Wrap.

(** ** pretty_format_node_dump *)

Module Pretty.

Definition INDENTSTOP : Z := 3.
Definition MAXINDENT : Z := 60.
Definition LINELEN : Z := 78.

Definition c_str (line : buffer) : list ascii :=
  c_str_from (Z.to_nat (LINELEN + 1)) line 0.

(** The local variables at the test of the inner [for] loop. *)
Record state : Type := mkState {
  i : Z;
  j : Z;
  line : buffer;
  indentLev : Z;               (* logical indent level *)
  indentDist : Z;              (* physical indent distance *)
  str : list (list ascii)
}.

(** *** The statements of the function, as state transformers *)

Definition set_i (v : Z) (s : state) : state :=
  mkState v (j s) (line s) (indentLev s) (indentDist s) (str s).
Definition set_j (v : Z) (s : state) : state :=
  mkState (i s) v (line s) (indentLev s) (indentDist s) (str s).
Definition set_indentLev (v : Z) (s : state) : state :=
  mkState (i s) (j s) (line s) v (indentDist s) (str s).
Definition set_indentDist (v : Z) (s : state) : state :=
  mkState (i s) (j s) (line s) (indentLev s) v (str s).

(** [line[k] = c] *)
Definition put (k : Z) (c : ascii) (s : state) : state :=
  mkState (i s) (j s) (store (line s) k c) (indentLev s) (indentDist s) (str s).

(** [appendStringInfo(&str, "%s\n", line)] *)
Definition emit (s : state) : state :=
  mkState (i s) (j s) (line s) (indentLev s) (indentDist s)
          (str s ++ [c_str (line s)]).

(** [for (; j < indentDist; j++) line[j] = ' ';] entered with [j] already
    set; [n] bounds the iterations left ([indentDist - j], see
    [PrettyFacts.fill_indent_spec]). *)
Fixpoint fill_loop (n : nat) (s : state) : state :=
  match n with
  | O => s
  | S n' =>
      if j s <? indentDist s
      then fill_loop n' (set_j (j s + 1) (put (j s) " " s))
      else s
  end.

(** [for (j = 0; j < indentDist; j++) line[j] = ' ';] *)
Definition fill_indent (s : state) : state :=
  fill_loop (Z.to_nat (indentDist s)) (set_j 0 s).

(** [while (dump[i + 1] == ' ') i++;]  [n] bounds the iterations left (the
    characters after [i], see [PrettyFacts.skip_spaces_stop]). *)
Fixpoint skip_loop (n : nat) (dump : list ascii) (s : state) : state :=
  match n with
  | O => s
  | S n' =>
      if Ascii.eqb (dump_at dump (i s + 1)) " "
      then skip_loop n' dump (set_i (i s + 1) s)
      else s
  end.

Definition skip_spaces (dump : list ascii) (s : state) : state :=
  skip_loop (length dump) dump s.

(** [if (j != indentDist) { line[j] = '\0'; appendStringInfo(...); }] *)
Definition flush_before (s : state) : state :=
  if negb (j s =? indentDist s) then emit (put (j s) NUL s) else s.

(** [indentDist = Min(indentLev * INDENTSTOP, MAXINDENT)] *)
Definition set_dist (s : state) : state :=
  set_indentDist (Z.min (indentLev s * INDENTSTOP) MAXINDENT) s.

Definition case_close_block (dump : list ascii) (s : state) : state :=
  (* print data before the } *)
  let s := flush_before s in
  (* print the } at indentDist *)
  let s := put (indentDist s) "}" s in
  let s := put (indentDist s + 1) NUL s in
  let s := emit s in
  (* outdent *)
  let s := if indentLev s >? 0
           then set_dist (set_indentLev (indentLev s - 1) s)
           else s in
  let s := set_j (indentDist s - 1) s in
  (* j will equal indentDist on next loop iteration *)
  (* suppress whitespace just after } *)
  skip_spaces dump s.

Definition case_close_group (dump : list ascii) (s : state) : state :=
  (* force line break after ), unless another ) follows *)
  if negb (Ascii.eqb (dump_at dump (i s + 1)) ")") then
    let s := put (j s + 1) NUL s in
    let s := emit s in
    let s := set_j (indentDist s - 1) s in
    skip_spaces dump s
  else s.

Definition case_open_block (dump : list ascii) (s : state) : state :=
  (* force line break before { *)
  let s := flush_before s in
  (* indent *)
  let s := set_indentLev (indentLev s + 1) s in
  let s := set_dist s in
  let s := fill_indent s in
  put (j s) (dump_at dump (i s)) s.

Definition case_field (dump : list ascii) (s : state) : state :=
  (* force line break before : *)
  let s := flush_before s in
  let s := set_j (indentDist s) s in
  put (j s) (dump_at dump (i s)) s.

(** The body of the inner [for] loop: [line[j] = dump[i]; switch (line[j])]. *)
Definition body (dump : list ascii) (s : state) : state :=
  let s := put (j s) (dump_at dump (i s)) s in
  let c := line s (j s) in
  if Ascii.eqb c "}" then case_close_block dump s
  else if Ascii.eqb c ")" then case_close_group dump s
  else if Ascii.eqb c "{" then case_open_block dump s
  else if Ascii.eqb c ":" then case_field dump s
  else s.

(** The test of the inner loop: [j < LINELEN && dump[i] != '\0']. *)
Definition inner_test (dump : list ascii) (s : state) : bool :=
  (j s <? LINELEN) && negb (Ascii.eqb (dump_at dump (i s)) NUL).

Inductive outcome : Type :=
| Continue (s : state)        (* back to the test of the inner loop *)
| Break (s : state).          (* [break] out of [for (;;)] *)

(** From one test of the inner loop to the next: either one pass through
    its body and [i++, j++], or, when the test fails, the tail of the outer
    body ([line[j] = '\0'], [break] or append the line) and the head of the
    next outer pass (the indentation). *)
Definition step (dump : list ascii) (s : state) : outcome :=
  if inner_test dump s then
    let s := body dump s in
    Continue (set_j (j s + 1) (set_i (i s + 1) s))
  else
    let s := put (j s) NUL s in
    if Ascii.eqb (dump_at dump (i s)) NUL then Break s
    else Continue (fill_indent (emit s)).

Fixpoint loop (fuel : nat) (dump : list ascii) (s : state) : option state :=
  match fuel with
  | O => None
  | S fuel' =>
      match step dump s with
      | Break s' => Some s'
      | Continue s' => loop fuel' dump s'
      end
  end.

(** [n] consecutive steps without leaving the loop. *)
Fixpoint steps (n : nat) (dump : list ascii) (s : state) : option state :=
  match n with
  | O => Some s
  | S n' =>
      match step dump s with
      | Continue s' => steps n' dump s'
      | Break _ => None
      end
  end.

(** The characters the switch (and the dump format) give a meaning to. *)
Definition is_marker (c : ascii) : bool :=
  Ascii.eqb c "{" || Ascii.eqb c "}" || Ascii.eqb c "(" || Ascii.eqb c ")"
  || Ascii.eqb c ":".

(** The marker characters the inner body meets from [s] on, each with
    [indentLev] as the body leaves it. *)
Fixpoint depth_trace (fuel : nat) (dump : list ascii) (s : state)
  : list (ascii * Z) :=
  match fuel with
  | O => []
  | S fuel' =>
      match step dump s with
      | Break _ => []
      | Continue s' =>
          (if inner_test dump s && is_marker (dump_at dump (i s))
           then [(dump_at dump (i s), indentLev s')] else [])
          ++ depth_trace fuel' dump s'
      end
  end.

(** After the loop: [if (j > 0) appendStringInfo(...); return str.data]. *)
Definition finish (s : state) : list (list ascii) :=
  str (if j s >? 0 then emit s else s).

Section Run.

Variable line0 : buffer.

(** The first test of the inner loop: [indentLev = 0; indentDist = 0; i = 0]
    and the (empty) indentation of the first line. *)
Definition init : state := fill_indent (mkState 0 0 line0 0 0 []).

(** A pass through the inner body consumes a character and a line is cut at
    the width bound only between two such passes, so [2 * length dump + 2]
    steps are enough ([PrettyFacts.loop_terminates]). *)
Definition fuel_for (dump : list ascii) : nat := 2 * length dump + 2.

Definition pretty_format_node_dump (dump : list ascii)
  : option (list (list ascii)) :=
  option_map finish (loop (fuel_for dump) dump init).

(** The nesting depth at the successive marker characters of [dump]. *)
Definition nesting_depths (dump : list ascii) : list (ascii * Z) :=
  depth_trace (fuel_for dump) dump init.

(** States at the test of the inner loop in the run on [dump]. *)
Inductive reachable (dump : list ascii) : state -> Prop :=
| reach_init : reachable dump init
| reach_step s s' :
    reachable dump s -> step dump s = Continue s' -> reachable dump s'.

End Run.

End Pretty.

(** [str.data]: every line followed by its line break. *)
Definition text_of (lines : list (list ascii)) : list ascii :=
  concat (map (fun l => l ++ [newline]) lines).

Definition chars (s : string) : list ascii := list_ascii_of_string s.

(** The C string held in [dump]: the characters before the first NUL. *)
Fixpoint c_string (dump : list ascii) : list ascii :=
  match dump with
  | [] => []
  | c :: rest => if Ascii.eqb c NUL then [] else c :: c_string rest
  end.

(** [n] characters of the input from index [a] on. *)
Definition slice (dump : list ascii) (a : Z) (n : nat) : list ascii :=
  map (fun k => dump_at dump (a + Z.of_nat k)) (seq 0 n).

(** The pieces of a text between its separators, empty ones included. *)
Fixpoint split_on (sep : ascii -> bool) (l : list ascii)
  : list (list ascii) :=
  match l with
  | [] => [[]]
  | c :: l' =>
      if sep c then [] :: split_on sep l'
      else match split_on sep l' with
           | t :: ts => (c :: t) :: ts
           | [] => [[c]]
           end
  end.

Definition nonempty (t : list ascii) : bool :=
  match t with [] => false | _ :: _ => true end.

(** The token stream of a text: its maximal runs without a separator. *)
Definition words_by (sep : ascii -> bool) (l : list ascii)
  : list (list ascii) :=
  filter nonempty (split_on sep l).

Definition is_space (c : ascii) : bool := Ascii.eqb c " ".

(** White space, as C's [isspace] has it: space, tab, line feed, vertical
    tab, form feed and carriage return. *)
Definition is_blank (c : ascii) : bool :=
  Ascii.eqb c " " || Ascii.eqb c (ascii_of_nat 9) || Ascii.eqb c newline
  || Ascii.eqb c (ascii_of_nat 11) || Ascii.eqb c (ascii_of_nat 12)
  || Ascii.eqb c (ascii_of_nat 13).

(** The tokens of a dump, which the wrapper tries not to split. *)
Definition tokens (l : list ascii) : list (list ascii) := words_by is_space l.

(** The token stream of a text read by splitting on white space. *)
Definition words (l : list ascii) : list (list ascii) := words_by is_blank l.

(** Lines and, after each, the separator consumed at its break. *)
Definition weave (lines seps : list (list ascii)) : list ascii :=
  concat (map (fun p => fst p ++ snd p) (combine lines seps)).

(** A text with its line breaks read as spaces. *)
Definition respace (text : list ascii) : list ascii :=
  map (fun c => if Ascii.eqb c newline then " " else c) text.

(** The lines of a text: what stands before each of its line breaks. *)
Definition lines_of_text (text : list ascii) : list (list ascii) :=
  removelast (split_on (fun c => Ascii.eqb c newline) text).

(** A line buffer full of what an earlier call left on the stack. *)
Definition stale : buffer := fun _ => "#".

(** ** Examples *)

Definition scenario_C : list ascii := chars "{A :B 1 {C :D 2}}".

(** The six lines the specification lists for Scenario C. *)
Definition scenario_C_spec_lines : list (list ascii) :=
  map chars ["   { A"; "   :B 1"; "      { C"; "      :D 2"; "      }";
             "   }"]%string.

(** The six lines the function returns for Scenario C. *)
Definition scenario_C_lines : list (list ascii) :=
  map chars ["   {A "; "   :B 1 "; "      {C "; "      :D 2"; "      }";
             "   }"]%string.

(** A line without the spaces at its end. *)
Fixpoint strip_trailing (l : list ascii) : list ascii :=
  match l with
  | [] => []
  | c :: l' =>
      match strip_trailing l' with
      | [] => if Ascii.eqb c " " then [] else [c]
      | r => c :: r
      end
  end.

(** A close-group at the last column of a line, and one more. *)
Definition close_groups_at_width : list ascii := repeat "a" 77 ++ chars "))".

(** Three close-groups, the width bound between the second and the
    third. *)
Definition close_groups_across_width : list ascii :=
  repeat "a" 76 ++ chars ")))x".

(** A block with a line break of the input inside. *)
Definition block_with_line_break : list ascii :=
  chars "{a" ++ [newline] ++ chars "}".

(** A token of [LINELEN] characters after a space. *)
Definition token_of_width : list ascii := chars " " ++ repeat "a" 78.

(** A token of [LINELEN + 1] characters. *)
Definition token_over_width : list ascii := repeat "a" 79.

(** A text of twenty tokens of four characters, two lines wide. *)
Definition short_tokens : list ascii :=
  chars "aaaa bbbb cccc dddd eeee ffff gggg hhhh iiii jjjj "
  ++ chars "kkkk llll mmmm nnnn oooo pppp qqqq rrrr ssss tttt".

(** * The runs, seen from outside the array *)

(** Definitions the proofs below work with: what a state of the pretty
    printer shows without its array, the invariant that ties the two, and
    the measures of progress. *)

(** The first [n] cells of a buffer. *)
Definition prefix (line : buffer) (n : Z) : list ascii :=
  map (fun k => line (Z.of_nat k)) (seq 0 (Z.to_nat n)).

(** The cursor stays inside the input and has passed no NUL. *)
Definition pos_ok (dump : list ascii) (i : Z) : Prop :=
  0 <= i <= Z.of_nat (length dump)
  /\ forall k, 0 <= k < i -> dump_at dump k <> NUL.

Module PrettyView.
Import Pretty.

(** Where [while (dump[i + 1] == ' ') i++] leaves the cursor. *)
Fixpoint skip_idx (n : nat) (dump : list ascii) (i : Z) : Z :=
  match n with
  | O => i
  | S n' =>
      if Ascii.eqb (dump_at dump (i + 1)) " "
      then skip_idx n' dump (i + 1)
      else i
  end.

Definition dist_of (lev : Z) : Z := Z.min (lev * INDENTSTOP) MAXINDENT.

Definition spaces (n : Z) : list ascii := repeat " " (Z.to_nat n).

(** A state without its array: the cursor, the line being built
    ([line[0 .. j-1]]), the indent level and the lines appended. *)
Record view : Type := mkView {
  v_i : Z;
  v_cur : list ascii;
  v_lev : Z;
  v_str : list (list ascii)
}.

Definition view_of (s : state) : view :=
  mkView (i s) (prefix (line s) (j s)) (indentLev s) (str s).

Definition v_j (v : view) : Z := Z.of_nat (length (v_cur v)).

(** The lines appended once the data before a trigger is printed. *)
Definition flushed (v : view) : list (list ascii) :=
  if v_j v =? dist_of (v_lev v) then v_str v else v_str v ++ [v_cur v].

Inductive voutcome : Type :=
| VContinue (v : view)
| VBreak (v : view).

(** [step] on views; [step_view] below shows that it is what [step] does. *)
Definition vstep (dump : list ascii) (v : view) : voutcome :=
  let c := dump_at dump (v_i v) in
  let d := dist_of (v_lev v) in
  let after := skip_idx (length dump) dump (v_i v) + 1 in
  if (v_j v <? LINELEN) && negb (Ascii.eqb c NUL) then
    if Ascii.eqb c "}" then
      let lev' := if v_lev v >? 0 then v_lev v - 1 else v_lev v in
      VContinue (mkView after (spaces (dist_of lev')) lev'
                        (flushed v ++ [spaces d ++ ["}"]]))
    else if Ascii.eqb c ")" then
      if Ascii.eqb (dump_at dump (v_i v + 1)) ")"
      then VContinue (mkView (v_i v + 1) (v_cur v ++ [")"]) (v_lev v) (v_str v))
      else VContinue (mkView after (spaces d) (v_lev v)
                             (v_str v ++ [v_cur v ++ [")"]]))
    else if Ascii.eqb c "{" then
      VContinue (mkView (v_i v + 1) (spaces (dist_of (v_lev v + 1)) ++ ["{"])
                        (v_lev v + 1) (flushed v))
    else if Ascii.eqb c ":" then
      VContinue (mkView (v_i v + 1) (spaces d ++ [":"]) (v_lev v) (flushed v))
    else
      VContinue (mkView (v_i v + 1) (v_cur v ++ [c]) (v_lev v) (v_str v))
  else if Ascii.eqb c NUL then VBreak v
  else VContinue (mkView (v_i v) (spaces d) (v_lev v) (v_str v ++ [v_cur v])).

Definition vfinish (v : view) : list (list ascii) :=
  if v_j v >? 0 then v_str v ++ [v_cur v] else v_str v.

(** What holds of the array and the indentation at every test of the inner
    loop. *)
Record inv (s : state) : Prop := mkInv {
  inv_lev : 0 <= indentLev s;
  inv_dist : indentDist s = dist_of (indentLev s);
  inv_j : indentDist s <= j s <= LINELEN;
  inv_indent : forall k, 0 <= k < indentDist s -> line s k = " ";
  inv_line : forall k, 0 <= k < j s -> line s k <> NUL
}.

(** Twice the characters left, and one more while a full line waits for
    its flush. *)
Definition measure (dump : list ascii) (s : state) : Z :=
  2 * (Z.of_nat (length dump) - i s) + (if j s <? LINELEN then 0 else 1).

(** A state at which [for (;;)] is left: [step] took the [break]. *)
Definition final (line0 : buffer) (dump : list ascii) (s' : state) : Prop :=
  exists s, reachable line0 dump s /\ step dump s = Break s'.

(** A line of the output: not empty, within the width, free of NUL. *)
Definition line_ok (l : list ascii) : Prop :=
  1 <= Z.of_nat (length l) <= LINELEN /\ ~ In NUL l.

(** The characters of class [P] appended or in the line being built. *)
Definition kept (P : ascii -> bool) (v : view) : list ascii :=
  filter P (text_of (v_str v) ++ v_cur v).

(** The line being built starts with the indentation. *)
Definition cur_indent (v : view) : Prop :=
  firstn (Z.to_nat (dist_of (v_lev v))) (v_cur v) = spaces (dist_of (v_lev v)).

(** The depth after each marker of a text, computed from the markers
    alone: ["{"] goes one level deeper, ["}"] one level back but not above
    the top. *)
Fixpoint depth_fold (lev : Z) (cs : list ascii) : list (ascii * Z) :=
  match cs with
  | [] => []
  | c :: cs' =>
      let lev' := if Ascii.eqb c "{" then lev + 1
                  else if Ascii.eqb c "}"
                       then (if lev >? 0 then lev - 1 else lev)
                       else lev in
      (c, lev') :: depth_fold lev' cs'
  end.

(** The input from the cursor on. *)
Definition rest (dump : list ascii) (k : Z) : list ascii :=
  skipn (Z.to_nat k) (c_string dump).

End PrettyView.

Module WrapView.
Import Wrap.

(** The pass that ends the run. *)
Definition final (line0 : buffer) (dump : list ascii) (j : Z) (s' : state)
  : Prop :=
  exists s, reachable line0 dump s /\ iter dump s = Break j s'.

(** A line of the output: not empty, within the width, free of NUL. *)
Definition wline_ok (l : list ascii) : Prop :=
  1 <= Z.of_nat (length l) <= LINELEN /\ ~ In NUL l.

(** The characters consumed at a break: none, or one space. *)
Definition sep_ok (sp : list ascii) : Prop := sp = [] \/ sp = [" "].

End WrapView.

(** * Properties *)

(** ** The line buffer read as a C string *)

Lemma store_same line k c : store line k c k = c.
Proof. unfold store. now rewrite Z.eqb_refl. Qed.

Lemma store_other line k c x : x <> k -> store line k c x = line x.
Proof. unfold store. intros H. destruct (Z.eqb_spec x k); congruence. Qed.

Ltac stores :=
  unfold store;
  repeat match goal with
         | |- context [?a =? ?b] => destruct (Z.eqb_spec a b); try lia
         end;
  try congruence; auto.

Lemma prefix_length line n : 0 <= n -> Z.of_nat (length (prefix line n)) = n.
Proof. intros H. unfold prefix. rewrite length_map, length_seq. lia. Qed.

Lemma prefix_nil line n : n <= 0 -> prefix line n = [].
Proof.
  intros H. unfold prefix. replace (Z.to_nat n) with O by lia. reflexivity.
Qed.

Lemma prefix_snoc line n :
  0 <= n -> prefix line (n + 1) = prefix line n ++ [line n].
Proof.
  intros H. unfold prefix.
  replace (Z.to_nat (n + 1)) with (Z.to_nat n + 1)%nat by lia.
  rewrite seq_app, map_app. cbn. now rewrite Z2Nat.id.
Qed.

Lemma prefix_ext l1 l2 n :
  (forall k, 0 <= k < n -> l1 k = l2 k) -> prefix l1 n = prefix l2 n.
Proof.
  intros H. unfold prefix. apply map_ext_in. intros k Hk.
  apply in_seq in Hk. apply H. lia.
Qed.

Lemma prefix_In line n c :
  In c (prefix line n) -> exists k, 0 <= k < n /\ line k = c.
Proof.
  unfold prefix. intros H. apply in_map_iff in H as (k & <- & Hk).
  apply in_seq in Hk. exists (Z.of_nat k). split; [lia | reflexivity].
Qed.

Lemma prefix_spaces line n :
  (forall k, 0 <= k < n -> line k = " ") ->
  prefix line n = repeat " " (Z.to_nat n).
Proof.
  intros H. unfold prefix.
  assert (G : forall m a,
             (forall k, (a <= k < a + m)%nat -> line (Z.of_nat k) = " ") ->
             map (fun k => line (Z.of_nat k)) (seq a m) = repeat " " m).
  { induction m as [|m IH]; intros a Ha; cbn; [reflexivity|].
    rewrite Ha by lia. f_equal. apply IH. intros k Hk. apply Ha. lia. }
  apply G. intros k Hk. apply H. lia.
Qed.

Lemma prefix_firstn line n m :
  0 <= m <= n -> firstn (Z.to_nat m) (prefix line n) = prefix line m.
Proof.
  intros H. unfold prefix. rewrite firstn_map. f_equal.
  replace (Z.to_nat n) with (Z.to_nat m + (Z.to_nat n - Z.to_nat m))%nat by lia.
  rewrite seq_app, firstn_app, length_seq, Nat.sub_diag. cbn.
  rewrite app_nil_r. apply firstn_all2. rewrite length_seq. lia.
Qed.

Lemma c_str_from_prefix n line k m :
  (m < n)%nat ->
  (forall x, k <= x < k + Z.of_nat m -> line x <> NUL) ->
  line (k + Z.of_nat m) = NUL ->
  c_str_from n line k = map (fun x => line (k + Z.of_nat x)) (seq 0 m).
Proof.
  revert line k m. induction n as [|n IH]; intros line k m Hm Hne Hnul; [lia|].
  cbn [c_str_from]. destruct m as [|m].
  - replace (k + Z.of_nat 0) with k in Hnul by lia.
    rewrite Hnul. reflexivity.
  - destruct (Ascii.eqb_spec (line k) NUL) as [E|_].
    + exfalso. apply (Hne k); [lia | exact E].
    + cbn [seq map]. replace (k + Z.of_nat 0) with k by lia. f_equal.
      rewrite (IH line (k + 1) m); [ | lia | intros x Hx; apply Hne; lia
                                     | rewrite <- Hnul; f_equal; lia ].
      rewrite <- seq_shift, map_map. apply map_ext. intros x. f_equal. lia.
Qed.

(** A buffer whose first NUL is at [n], within the array, reads as its first
    [n] cells. *)
Lemma c_str_from_stop cap line n :
  0 <= n < Z.of_nat cap ->
  (forall k, 0 <= k < n -> line k <> NUL) ->
  line n = NUL ->
  c_str_from cap line 0 = prefix line n.
Proof.
  intros Hn Hne Hnul.
  rewrite (c_str_from_prefix cap line 0 (Z.to_nat n)).
  - unfold prefix. apply map_ext. intros x. f_equal.
  - lia.
  - intros x Hx. apply Hne. lia.
  - rewrite <- Hnul. f_equal. lia.
Qed.

Lemma c_str_from_no_NUL n line k : ~ In NUL (c_str_from n line k).
Proof.
  revert k. induction n as [|n IH]; intros k; cbn; [tauto|].
  destruct (Ascii.eqb_spec (line k) NUL) as [E|E]; cbn; [tauto|].
  intros [H|H]; [congruence | exact (IH _ H)].
Qed.

Lemma dump_at_end dump k : Z.of_nat (length dump) <= k -> dump_at dump k = NUL.
Proof. intros H. unfold dump_at. apply nth_overflow. lia. Qed.

Lemma dump_at_inside dump k :
  0 <= k -> dump_at dump k <> NUL -> k < Z.of_nat (length dump).
Proof.
  intros H0 H. destruct (Z_lt_le_dec k (Z.of_nat (length dump))) as [L|L];
    [exact L | now rewrite dump_at_end in H].
Qed.

Lemma space_not_NUL : " " <> NUL.
Proof. discriminate. Qed.

(** ** The input as a C string *)

Section Input.

Variable dump : list ascii.

Lemma pos_ok_next i :
  pos_ok dump i -> dump_at dump i <> NUL -> pos_ok dump (i + 1).
Proof.
  intros [H1 H2] Hne. split.
  - pose proof (dump_at_inside dump i (proj1 H1) Hne). lia.
  - intros k Hk. destruct (Z.eq_dec k i) as [->|]; [exact Hne | apply H2; lia].
Qed.

End Input.

Lemma firstn_next dump k :
  0 <= k -> dump_at dump k <> NUL ->
  firstn (Z.to_nat (k + 1)) dump = firstn (Z.to_nat k) dump ++ [dump_at dump k].
Proof.
  intros H0 Hne. pose proof (dump_at_inside dump k H0 Hne) as Hl.
  unfold dump_at. replace (Z.to_nat (k + 1)) with (S (Z.to_nat k)) by lia.
  assert (Hn : (Z.to_nat k < length dump)%nat) by lia.
  revert Hn. generalize (Z.to_nat k). clear.
  induction dump as [|c dump IH]; intros n Hn; cbn in Hn; [lia|].
  destruct n as [|n]; [reflexivity|].
  cbn [firstn nth app]. f_equal. apply IH. lia.
Qed.

Lemma c_string_firstn dump : forall n,
  (forall k, (k < n)%nat -> nth k dump NUL <> NUL) ->
  nth n dump NUL = NUL ->
  firstn n dump = c_string dump.
Proof.
  induction dump as [|c dump IH]; intros n Hlt Hn; [now destruct n|].
  destruct n as [|n]; cbn in *.
  - rewrite Hn. reflexivity.
  - destruct (Ascii.eqb_spec c NUL) as [E|E].
    + elim (Hlt O); [lia | exact E].
    + f_equal. apply IH; [|exact Hn]. intros k Hk. apply (Hlt (S k)). lia.
Qed.

Lemma c_string_id l : ~ In NUL l -> c_string l = l.
Proof.
  induction l as [|c l IH]; intros H; [reflexivity|]. cbn.
  destruct (Ascii.eqb_spec c NUL) as [E|E]; [elim H; now left|].
  f_equal. apply IH. intros Hin. apply H. now right.
Qed.

Lemma skipn_c_string_cons dump : forall n,
  (forall k, (k <= n)%nat -> nth k dump NUL <> NUL) ->
  skipn n (c_string dump) = nth n dump NUL :: skipn (S n) (c_string dump).
Proof.
  induction dump as [|c dump IH]; intros n H.
  - elim (H O); [lia | reflexivity].
  - assert (Hc : c <> NUL) by (apply (H O); lia).
    cbn [c_string]. destruct (Ascii.eqb_spec c NUL) as [E|_]; [contradiction|].
    destruct n as [|n]; [reflexivity|]. cbn [skipn nth].
    apply IH. intros k Hk. apply (H (S k)). lia.
Qed.

Lemma skipn_c_string_nil dump n :
  (forall k, (k < n)%nat -> nth k dump NUL <> NUL) ->
  nth n dump NUL = NUL ->
  skipn n (c_string dump) = [].
Proof.
  intros H E. rewrite <- (c_string_firstn dump n H E).
  apply skipn_all2. apply firstn_le_length.
Qed.

Lemma text_of_app a b : text_of (a ++ b) = text_of a ++ text_of b.
Proof. unfold text_of. now rewrite map_app, concat_app. Qed.

Lemma text_of_one l : text_of [l] = l ++ [newline].
Proof. unfold text_of. cbn. now rewrite app_nil_r. Qed.

(** ** Token streams *)

Section Split.

Variable sep : ascii -> bool.

Lemma split_on_nonnil l : split_on sep l <> [].
Proof.
  destruct l as [|c l]; cbn; [discriminate|].
  destruct (sep c); [discriminate|].
  destruct (split_on sep l); discriminate.
Qed.

Lemma split_on_app_sep a s b :
  sep s = true ->
  split_on sep (a ++ s :: b) = split_on sep a ++ split_on sep b.
Proof.
  intros Hs. induction a as [|c a IH]; cbn.
  - now rewrite Hs.
  - rewrite IH. destruct (sep c); [reflexivity|].
    pose proof (split_on_nonnil a) as Hn.
    destruct (split_on sep a); [contradiction | reflexivity].
Qed.

Lemma words_by_nil : words_by sep [] = [].
Proof. reflexivity. Qed.

Lemma words_by_app_sep a s b :
  sep s = true ->
  words_by sep (a ++ s :: b) = words_by sep a ++ words_by sep b.
Proof.
  intros Hs. unfold words_by. now rewrite split_on_app_sep, filter_app.
Qed.

(** Lines joined by a separator [b] each: the tokens are those of the
    lines. *)
Lemma words_by_joined b lines x :
  sep b = true ->
  words_by sep (concat (map (fun l => l ++ [b]) lines) ++ x)
  = concat (map (words_by sep) lines) ++ words_by sep x.
Proof.
  intros Hb. induction lines as [|l lines IH]; [reflexivity|].
  cbn [map concat]. rewrite <- !app_assoc. cbn [app].
  now rewrite words_by_app_sep, IH.
Qed.

Lemma split_on_head_run mid post :
  Forall (fun c => sep c = false) mid ->
  exists t ts, split_on sep (mid ++ post) = (mid ++ t) :: ts.
Proof.
  induction 1 as [|c mid Hc _ IH]; cbn [app].
  - pose proof (split_on_nonnil post) as Hn.
    destruct (split_on sep post) as [|t ts]; [contradiction|].
    now exists t, ts.
  - destruct IH as (t & ts & E). cbn [split_on]. rewrite Hc, E.
    now exists t, ts.
Qed.

(** A run without separator lies within one piece. *)
Lemma split_on_run pre mid post :
  Forall (fun c => sep c = false) mid ->
  exists t,
    In t (split_on sep (pre ++ mid ++ post))
    /\ (length mid <= length t)%nat.
Proof.
  intros Hm. induction pre as [|c pre IH]; cbn [app].
  - destruct (split_on_head_run mid post Hm) as (t & ts & E).
    exists (mid ++ t). rewrite E. split; [now left|].
    rewrite length_app. lia.
  - destruct IH as (t & Hin & Hl). cbn [split_on].
    destruct (sep c); [exists t; split; [now right | exact Hl]|].
    destruct (split_on sep (pre ++ mid ++ post)) as [|t0 ts]; [contradiction|].
    destruct Hin as [->|Hin].
    + exists (c :: t). split; [now left | cbn; lia].
    + exists t. split; [now right | exact Hl].
Qed.

Lemma split_on_head_prefix l : forall t0 ts,
  split_on sep l = t0 :: ts -> exists r, l = t0 ++ r.
Proof.
  induction l as [|c l IH]; intros t0 ts E; cbn in E.
  - injection E as <- _. now exists [].
  - destruct (sep c).
    + injection E as <- _. now exists (c :: l).
    + destruct (split_on sep l) as [|t1 ts1] eqn:E1.
      * injection E as <- _. now exists l.
      * injection E as <- _. destruct (IH t1 ts1 eq_refl) as (r & ->).
        now exists r.
Qed.

(** A piece has no separator and is a segment of the text. *)
Lemma split_on_In l : forall t,
  In t (split_on sep l) ->
  Forall (fun c => sep c = false) t
  /\ exists pre post, l = pre ++ t ++ post.
Proof.
  induction l as [|c l IH]; intros t Hin; cbn [split_on] in Hin.
  - destruct Hin as [<-|[]]. split; [constructor | now exists [], []].
  - destruct (sep c) eqn:Hc.
    + destruct Hin as [<-|Hin].
      * split; [constructor | now exists [], (c :: l)].
      * destruct (IH t Hin) as (Hf & pre & post & E).
        split; [exact Hf|]. exists (c :: pre), post. now rewrite E.
    + destruct (split_on sep l) as [|t0 ts] eqn:E0.
      * destruct Hin as [<-|[]].
        split; [now repeat constructor|].
        exists [], l. reflexivity.
      * destruct Hin as [<-|Hin].
        -- destruct IH with (t := t0) as (Hf0 & _); [now left|].
           split; [now constructor|].
           destruct (split_on_head_prefix l t0 ts E0) as (r & ->).
           now exists [], r.
        -- destruct IH with (t := t) as (Hf & pre & post & E2); [now right|].
           split; [exact Hf|]. exists (c :: pre), post. now rewrite E2.
Qed.

End Split.

(** ** pretty_format_node_dump: the run seen through the current line *)

Module PrettyFacts.
Import Pretty PrettyView.

Lemma dist_of_range lev : 0 <= lev -> 0 <= dist_of lev <= MAXINDENT.
Proof. unfold dist_of, INDENTSTOP, MAXINDENT. lia. Qed.

Lemma skip_loop_idx n dump s :
  skip_loop n dump s = set_i (skip_idx n dump (i s)) s.
Proof.
  revert s. induction n as [|n IH]; intros s; cbn.
  - now destruct s.
  - destruct (Ascii.eqb (dump_at dump (i s + 1)) " ").
    + rewrite IH. now destruct s.
    + now destruct s.
Qed.

Lemma fill_loop_spec n s :
  j s <= indentDist s -> Z.of_nat n = indentDist s - j s ->
  exists line',
    fill_loop n s
    = mkState (i s) (indentDist s) line' (indentLev s) (indentDist s) (str s)
    /\ forall k, line' k = if (j s <=? k) && (k <? indentDist s) then " "
                           else line s k.
Proof.
  revert s. induction n as [|n IH]; intros s Hj Hn; cbn [fill_loop].
  - exists (line s). split.
    + destruct s; cbn in *. f_equal. lia.
    + intros k. destruct (Z.leb_spec (j s) k), (Z.ltb_spec k (indentDist s));
        cbn; try reflexivity; lia.
  - destruct (Z.ltb_spec (j s) (indentDist s)) as [L|L]; [|lia].
    destruct (IH (set_j (j s + 1) (put (j s) " " s))) as (line' & E & Hl);
      [destruct s; cbn in *; lia .. |].
    exists line'. split.
    + rewrite E. now destruct s.
    + intros k. rewrite Hl. destruct s as [i0 j0 l0 lev0 d0 st0]; cbn in *.
      destruct (Z.leb_spec (j0 + 1) k), (Z.leb_spec j0 k),
        (Z.ltb_spec k d0); cbn; try reflexivity; try lia; stores.
Qed.

Lemma fill_indent_spec s :
  0 <= indentDist s ->
  exists line',
    fill_indent s
    = mkState (i s) (indentDist s) line' (indentLev s) (indentDist s) (str s)
    /\ (forall k, 0 <= k < indentDist s -> line' k = " ")
    /\ (forall k, indentDist s <= k -> line' k = line s k).
Proof.
  intros H. unfold fill_indent.
  destruct (fill_loop_spec (Z.to_nat (indentDist s)) (set_j 0 s))
    as (line' & E & Hl); [destruct s; cbn in *; lia .. |].
  exists line'. split; [rewrite E; now destruct s|].
  split; intros k Hk; rewrite Hl; destruct s as [i0 j0 l0 lev0 d0 st0];
    cbn in *.
  - destruct (Z.leb_spec 0 k), (Z.ltb_spec k d0); cbn; try reflexivity; lia.
  - destruct (Z.leb_spec 0 k), (Z.ltb_spec k d0); cbn; try reflexivity; lia.
Qed.

Lemma c_str_stop line n :
  0 <= n <= LINELEN ->
  (forall k, 0 <= k < n -> line k <> NUL) ->
  line n = NUL ->
  c_str line = prefix line n.
Proof.
  intros Hn. apply c_str_from_stop. unfold LINELEN in *. lia.
Qed.

Lemma c_str_indent_char b d ch :
  0 <= d < LINELEN ->
  (forall k, 0 <= k < d -> b k = " ") ->
  b d = ch -> ch <> NUL -> b (d + 1) = NUL ->
  c_str b = spaces d ++ [ch].
Proof.
  intros Hd Hsp Hch Hne Hnul. rewrite (c_str_stop b (d + 1)).
  - rewrite prefix_snoc by lia. rewrite prefix_spaces by exact Hsp.
    now rewrite Hch.
  - lia.
  - intros k Hk. destruct (Z.eq_dec k d) as [->|Hkd]; [congruence|].
    rewrite Hsp by lia. discriminate.
  - exact Hnul.
Qed.

#[local] Arguments store : simpl never.
#[local] Arguments c_str : simpl never.

Lemma skip_spaces_idx dump s :
  skip_spaces dump s = set_i (skip_idx (length dump) dump (i s)) s.
Proof. apply skip_loop_idx. Qed.

Ltac pointwise Hind Hline :=
  let k := fresh "k" in
  let Hk := fresh "Hk" in
  intros k Hk; stores;
  first [ apply Hind; lia | apply Hline; lia
        | rewrite Hind by lia; discriminate | idtac ].

(** [step] acts on the view of a state as [vstep] says, and keeps [inv]. *)
Lemma step_view dump s :
  inv s ->
  match step dump s with
  | Continue s' => vstep dump (view_of s) = VContinue (view_of s') /\ inv s'
  | Break s' =>
      vstep dump (view_of s) = VBreak (view_of s') /\ inv s'
      /\ line s' (j s') = NUL
  end.
Proof.
  intros [Hlev Hdist Hj Hind Hline].
  destruct s as [i0 j0 l0 lev d st]. cbn in *.
  pose proof (dist_of_range lev Hlev) as Hd. rewrite <- Hdist in Hd.
  assert (HL : LINELEN = 78) by reflexivity.
  assert (HM : MAXINDENT = 60) by reflexivity.
  unfold step, vstep, inner_test, view_of, flushed, v_j. cbn.
  rewrite ?prefix_length by lia.
  destruct (Z.ltb_spec j0 LINELEN) as [Lj|Lj];
    destruct (Ascii.eqb_spec (dump_at dump i0) NUL) as [En|En]; cbn.
  - (* end of input *)
    split; [|split].
    + do 2 f_equal. apply prefix_ext. pointwise Hind Hline.
    + constructor; cbn; try assumption; try lia; pointwise Hind Hline.
    + apply store_same.
  - (* a pass through the inner body *)
    unfold body. cbn. rewrite store_same.
    set (c := dump_at dump i0) in *.
    rewrite <- Hdist.
    destruct (Ascii.eqb_spec c "}") as [Ec|Ec1].
    { unfold case_close_block, flush_before. cbn.
      assert (Hd' : 0 < lev -> 0 <= dist_of (lev - 1) <= d).
      { intros Hp. subst d. unfold dist_of, INDENTSTOP, MAXINDENT. lia. }
      destruct (Z.eqb_spec j0 d) as [Ej|Ej]; cbn;
        destruct (Z.gtb_spec lev 0) as [Lv|Lv];
        cbn; rewrite skip_spaces_idx; cbn;
        fold (dist_of (lev - 1)).
      all: rewrite <- ?Hdist.
      all: split; [ do 2 f_equal | ].
      all: try (replace (dist_of (lev - 1) - 1 + 1) with (dist_of (lev - 1))
                 by lia).
      all: try (replace (d - 1 + 1) with d by lia).
      all: try (symmetry; apply prefix_spaces; pointwise Hind Hline).
      all: repeat f_equal.
      all: try (symmetry; apply c_str_indent_char;
                [ lia | pointwise Hind Hline | stores | discriminate
                | stores ]).
      all: try (rewrite (c_str_stop _ j0);
                [ apply prefix_ext; pointwise Hind Hline | lia
                | pointwise Hind Hline | stores ]).
      all: constructor; cbn; fold (dist_of (lev - 1));
        [ lia | first [reflexivity | assumption] | lia
        | pointwise Hind Hline | pointwise Hind Hline ]. }
    destruct (Ascii.eqb_spec c ")") as [Ec|Ec2].
    { unfold case_close_group. cbn.
      destruct (Ascii.eqb_spec (dump_at dump (i0 + 1)) ")") as [Ex|Ex]; cbn.
      - split.
        + do 2 f_equal. rewrite prefix_snoc by lia. rewrite store_same.
          rewrite Ec. f_equal. apply prefix_ext. pointwise Hind Hline.
        + constructor; cbn; try assumption; try lia; pointwise Hind Hline.
      - rewrite skip_spaces_idx. cbn. split.
        + do 2 f_equal.
          * replace (d - 1 + 1) with d by lia. symmetry.
            apply prefix_spaces. pointwise Hind Hline.
          * do 2 f_equal.
            rewrite (c_str_stop _ (j0 + 1));
              [ | lia | pointwise Hind Hline | stores].
            rewrite prefix_snoc by lia.
            f_equal; [apply prefix_ext; pointwise Hind Hline | stores].
        + constructor; cbn; try assumption; try lia; pointwise Hind Hline. }
    destruct (Ascii.eqb_spec c "{") as [Ec|Ec3].
    { unfold case_open_block, flush_before. cbn.
      assert (Hd' : 0 <= dist_of (lev + 1) <= MAXINDENT)
        by (apply dist_of_range; lia).
      destruct (Z.eqb_spec j0 d) as [Ej|Ej]; cbn; fold (dist_of (lev + 1)).
      all: match goal with
           | |- context [fill_indent ?x] =>
               destruct (fill_indent_spec x) as (lf & Ef & Hf1 & Hf2);
               [ cbn; fold (dist_of (lev + 1)); lia
               | rewrite Ef; cbn in Hf1, Hf2 |- *;
                 fold (dist_of (lev + 1)) in *; clear Ef ]
           end.
      all: fold c; split; [ do 2 f_equal | ].
      all: try (symmetry; rewrite prefix_snoc by lia; rewrite store_same, Ec;
                f_equal; apply prefix_spaces; intros k Hk; stores).
      all: try (do 2 f_equal; symmetry; rewrite (c_str_stop _ j0);
                [ apply prefix_ext; pointwise Hind Hline | lia
                | pointwise Hind Hline | stores ]).
      all: constructor; cbn; try reflexivity; try lia;
        intros k Hk; stores; rewrite Hf1 by lia; discriminate. }
    destruct (Ascii.eqb_spec c ":") as [Ec|Ec4].
    { unfold case_field, flush_before. cbn.
      destruct (Z.eqb_spec j0 d) as [Ej|Ej]; cbn.
      all: fold c; split; [ do 2 f_equal | ].
      all: try (symmetry; rewrite prefix_snoc by lia; rewrite store_same, Ec;
                f_equal; apply prefix_spaces; pointwise Hind Hline).
      all: try (do 2 f_equal; symmetry; rewrite (c_str_stop _ j0);
                [ apply prefix_ext; pointwise Hind Hline | lia
                | pointwise Hind Hline | stores ]).
      all: constructor; cbn; try assumption; try lia; pointwise Hind Hline. }
    cbn. split.
    + do 2 f_equal. rewrite prefix_snoc by lia. rewrite store_same.
      f_equal. apply prefix_ext. pointwise Hind Hline.
    + constructor; cbn; try assumption; try lia; pointwise Hind Hline.
  - (* end of input, the line full *)
    split; [|split].
    + do 2 f_equal. apply prefix_ext. pointwise Hind Hline.
    + constructor; cbn; try assumption; try lia; pointwise Hind Hline.
    + apply store_same.
  - (* the width bound *)
    match goal with
    | |- context [fill_indent ?x] =>
        destruct (fill_indent_spec x) as (lf & Ef & Hf1 & Hf2);
        [ cbn; lia | rewrite Ef; cbn in Hf1, Hf2 |- *; clear Ef ]
    end.
    rewrite <- Hdist. split.
    + do 2 f_equal.
      * symmetry. apply prefix_spaces. exact Hf1.
      * do 2 f_equal. symmetry. rewrite (c_str_stop _ j0);
          [ apply prefix_ext; pointwise Hind Hline | lia
          | pointwise Hind Hline | stores ].
    + constructor; cbn; try assumption; try lia.
      intros k Hk. rewrite Hf1 by lia. discriminate.
Qed.

(** *** Reachable states *)

Section Reach.

Variable line0 : buffer.
Variable dump : list ascii.

Lemma init_inv : inv (init line0).
Proof.
  constructor; cbn; unfold dist_of, INDENTSTOP, MAXINDENT, LINELEN;
    try lia; intros k Hk; lia.
Qed.

Lemma reachable_inv s : reachable line0 dump s -> inv s.
Proof.
  induction 1 as [|s s' _ IH E]; [apply init_inv|].
  pose proof (step_view dump s IH) as H. rewrite E in H. apply H.
Qed.

Lemma view_j s : inv s -> v_j (view_of s) = j s.
Proof.
  intros H. unfold v_j, view_of. cbn. apply prefix_length.
  pose proof (dist_of_range _ (inv_lev s H)). destruct H as [_ E ? _ _].
  rewrite <- E in *. lia.
Qed.

Lemma skip_idx_spec n i :
  i <= skip_idx n dump i
  /\ forall k, i < k <= skip_idx n dump i -> dump_at dump k = " ".
Proof.
  revert i. induction n as [|n IH]; intros i; cbn;
    [split; [lia | intros; lia]|].
  destruct (Ascii.eqb_spec (dump_at dump (i + 1)) " ") as [E|E];
    [|split; [lia | intros; lia]].
  destruct (IH (i + 1)) as [H1 H2]. split; [lia|].
  intros k Hk. destruct (Z.eq_dec k (i + 1)) as [->|Hne]; [exact E|].
  apply H2. lia.
Qed.

Lemma skip_idx_stop n i :
  -1 <= i -> Z.of_nat (length dump) <= i + 1 + Z.of_nat n ->
  dump_at dump (skip_idx n dump i + 1) <> " ".
Proof.
  revert i. induction n as [|n IH]; intros i Hi Hn; cbn.
  - rewrite dump_at_end by lia. discriminate.
  - destruct (Ascii.eqb_spec (dump_at dump (i + 1)) " ") as [E|E]; [|exact E].
    apply IH; lia.
Qed.

(** The [while] loop has ended when [skip_spaces] returns. *)
Lemma skip_spaces_stop s :
  0 <= i s -> dump_at dump (i (skip_spaces dump s) + 1) <> " ".
Proof.
  intros H. rewrite skip_spaces_idx. destruct s as [i0 j0 l0 lev d st].
  cbn in *. apply skip_idx_stop; lia.
Qed.

Lemma pos_ok_skip n i :
  pos_ok dump i -> dump_at dump i <> NUL -> pos_ok dump (skip_idx n dump i + 1).
Proof.
  intros Hp Hne. destruct (skip_idx_spec n i) as [H1 H2].
  destruct (Z.eq_dec (skip_idx n dump i) i) as [->|Hd];
    [now apply pos_ok_next|].
  assert (Hs : forall k, i < k <= skip_idx n dump i -> dump_at dump k <> NUL).
  { intros k Hk. rewrite H2 by lia. discriminate. }
  destruct Hp as [Hp1 Hp2]. split.
  - assert (skip_idx n dump i < Z.of_nat (length dump));
      [apply dump_at_inside; [lia | apply Hs; lia] | lia].
  - intros k Hk. destruct (Z_lt_le_dec k i); [apply Hp2; lia|].
    destruct (Z.eq_dec k i) as [->|]; [exact Hne | apply Hs; lia].
Qed.

(** The cursor after a step, read off [vstep]. *)
Lemma vstep_cursor v v' :
  vstep dump v = VContinue v' ->
  (v_i v' = v_i v /\ LINELEN <= v_j v /\ dump_at dump (v_i v) <> NUL
   /\ v_cur v' = spaces (dist_of (v_lev v)))
  \/ (v_j v < LINELEN /\ dump_at dump (v_i v) <> NUL
      /\ (v_i v' = v_i v + 1
          \/ v_i v' = skip_idx (length dump) dump (v_i v) + 1)).
Proof.
  unfold vstep.
  destruct (Z.ltb_spec (v_j v) LINELEN) as [Lj|Lj];
    destruct (Ascii.eqb_spec (dump_at dump (v_i v)) NUL) as [En|En]; cbn;
    try discriminate.
  - intros H. right. split; [exact Lj|]. split; [exact En|].
    repeat match type of H with
           | context [Ascii.eqb ?a ?b] => destruct (Ascii.eqb a b)
           end; injection H as <-; cbn; auto.
  - intros H. injection H as <-. cbn. left. auto.
Qed.

Lemma reachable_pos s : reachable line0 dump s -> pos_ok dump (i s).
Proof.
  induction 1 as [|s s' R IH E].
  - cbn. split; [lia | intros; lia].
  - pose proof (step_view dump s (reachable_inv s R)) as H. rewrite E in H.
    destruct H as [H _]. apply vstep_cursor in H. cbn in H.
    destruct H as [(-> & _)|(_ & Hne & [-> | ->])];
      [exact IH | now apply pos_ok_next | now apply pos_ok_skip].
Qed.

(** *** Termination *)

Lemma measure_nonneg s : pos_ok dump (i s) -> 0 <= measure dump s.
Proof.
  intros [H _]. unfold measure. destruct (j s <? LINELEN); lia.
Qed.

Lemma step_measure s s' :
  inv s -> pos_ok dump (i s) -> step dump s = Continue s' ->
  measure dump s' < measure dump s.
Proof.
  intros Hi Hp E.
  pose proof (step_view dump s Hi) as H. rewrite E in H. destruct H as [H Hi'].
  pose proof (view_j s Hi) as Vj. pose proof (view_j s' Hi') as Vj'.
  apply vstep_cursor in H. rewrite Vj in H. cbn in H. unfold measure.
  destruct H as [(-> & Lj & _ & Hc)|(Lj & Hne & Hc)].
  - unfold v_j in Vj'. cbn in Vj'. rewrite Hc in Vj'. unfold spaces in Vj'.
    rewrite repeat_length in Vj'.
    pose proof (dist_of_range _ (inv_lev s Hi)) as Hd.
    destruct (Z.ltb_spec (j s) LINELEN), (Z.ltb_spec (j s') LINELEN);
      unfold LINELEN, MAXINDENT in *; lia.
  - assert (i s + 1 <= i s').
    { destruct Hc as [-> | ->]; [lia|].
      pose proof (proj1 (skip_idx_spec (length dump) (i s))). lia. }
    destruct (Z.ltb_spec (j s) LINELEN), (Z.ltb_spec (j s') LINELEN); lia.
Qed.

Lemma loop_terminates fuel s :
  reachable line0 dump s -> measure dump s < Z.of_nat fuel ->
  exists s', loop fuel dump s = Some s' /\ final line0 dump s'.
Proof.
  revert s. induction fuel as [|fuel IH]; intros s R Hm.
  - pose proof (measure_nonneg s (reachable_pos s R)). lia.
  - cbn [loop]. destruct (step dump s) as [s1|s1] eqn:E.
    + apply IH; [eapply reach_step; eassumption|].
      pose proof (step_measure s s1 (reachable_inv s R) (reachable_pos s R) E).
      lia.
    + exists s1. split; [reflexivity | exists s; auto].
Qed.

Lemma loop_fuel_irrelevant fuel1 fuel2 s s1 s2 :
  loop fuel1 dump s = Some s1 -> loop fuel2 dump s = Some s2 -> s1 = s2.
Proof.
  revert fuel2 s.
  induction fuel1 as [|fuel1 IH]; intros fuel2 s; [discriminate|].
  destruct fuel2 as [|fuel2]; [discriminate|]. cbn [loop].
  destruct (step dump s) as [s'|s']; [apply IH | congruence].
Qed.

Lemma run_final :
  exists s', loop (fuel_for dump) dump (init line0) = Some s'
             /\ final line0 dump s'.
Proof.
  apply loop_terminates; [constructor|].
  unfold measure, fuel_for.
  change (i (init line0)) with 0. change (j (init line0) <? LINELEN) with true.
  lia.
Qed.

Lemma final_facts s' :
  final line0 dump s' ->
  inv s' /\ line s' (j s') = NUL /\ dump_at dump (i s') = NUL
  /\ pos_ok dump (i s')
  /\ exists s, reachable line0 dump s /\ view_of s = view_of s'.
Proof.
  intros (s & R & E).
  pose proof (step_view dump s (reachable_inv s R)) as H. rewrite E in H.
  destruct H as (H & Hi & Hn). split; [exact Hi|]. split; [exact Hn|].
  assert (Hv : view_of s = view_of s' /\ dump_at dump (v_i (view_of s)) = NUL).
  { revert H. unfold vstep.
    destruct ((v_j (view_of s) <? LINELEN)
              && negb (Ascii.eqb (dump_at dump (v_i (view_of s))) NUL)).
    - repeat match goal with
             | |- context [Ascii.eqb ?a ?b] => destruct (Ascii.eqb a b)
             end; discriminate.
    - destruct (Ascii.eqb_spec (dump_at dump (v_i (view_of s))) NUL);
        [|discriminate].
      intros H. split; [congruence | assumption]. }
  destruct Hv as [Hv Hnul].
  assert (Ei : i s = i s') by (now injection Hv).
  cbn in Hnul. rewrite <- Ei. split; [exact Hnul|].
  split; [now apply reachable_pos|]. exists s. auto.
Qed.

(** The result, read off the view of the final line0 dump state. *)
Lemma finish_view s' :
  inv s' -> line s' (j s') = NUL -> finish s' = vfinish (view_of s').
Proof.
  intros Hi Hn. unfold finish, vfinish. rewrite (view_j s' Hi).
  destruct (j s' >? 0); [|reflexivity].
  destruct s' as [i0 j0 l0 lev d st]. cbn in *. f_equal. f_equal.
  pose proof (dist_of_range _ (inv_lev _ Hi)) as Hd.
  destruct Hi as [_ E Hj _ Hl]. cbn in *. rewrite <- E in Hd.
  apply c_str_stop; [lia | exact Hl | exact Hn].
Qed.

End Reach.

(** Case analysis of [vstep] in a hypothesis [H : vstep dump v = _]. *)
Ltac vstep_cases H :=
  unfold vstep, flushed in H;
  repeat match type of H with
         | context [Z.ltb ?a ?b] => destruct (Z.ltb_spec a b)
         | context [Z.eqb ?a ?b] => destruct (Z.eqb_spec a b)
         | context [Z.gtb ?a ?b] => destruct (Z.gtb_spec a b)
         | context [Ascii.eqb ?a ?b] => destruct (Ascii.eqb_spec a b)
         end;
  cbn [andb negb] in H; try discriminate H;
  injection H as H; subst.

(** *** The lines a step appends *)

Section Lines.

Variable line0 : buffer.
Variable dump : list ascii.

(** Every line a step appends is the line being built (when it holds data
    or is full), that line closed by the [")"] met, or the indentation and
    the ["}"] met. *)
Lemma vstep_new_lines v v' :
  vstep dump v = VContinue v' ->
  exists new,
    v_str v' = v_str v ++ new
    /\ Forall (fun l =>
                 (l = v_cur v
                  /\ (v_j v <> dist_of (v_lev v) \/ LINELEN <= v_j v))
                 \/ (l = v_cur v ++ [")"] /\ v_j v < LINELEN
                     /\ dump_at dump (v_i v) = ")")
                 \/ (l = spaces (dist_of (v_lev v)) ++ ["}"]
                     /\ dump_at dump (v_i v) = "}")) new.
Proof.
  intros H. vstep_cases H; cbn [v_str].
  all: try (exists []; split; [now rewrite app_nil_r | constructor]).
  all: try (eexists [_]; split; [reflexivity|];
            repeat constructor; solve [auto]).
  all: try (rewrite <- app_assoc; eexists [_; _]; split; [reflexivity|];
            repeat constructor; solve [auto]).
Qed.

Lemma spaces_length n : 0 <= n -> Z.of_nat (length (spaces n)) = n.
Proof. intros H. unfold spaces. rewrite repeat_length. lia. Qed.

Lemma spaces_In c n : In c (spaces n) -> c = " ".
Proof. intros H. exact (repeat_spec _ _ _ H). Qed.

Lemma cur_no_NUL s : inv s -> ~ In NUL (prefix (line s) (j s)).
Proof.
  intros Hi Hin. apply prefix_In in Hin as (k & Hk & E).
  exact (inv_line s Hi k Hk E).
Qed.

Lemma step_lines_ok s s' :
  inv s -> step dump s = Continue s' ->
  Forall line_ok (str s) -> Forall line_ok (str s').
Proof.
  intros Hi E Hs.
  pose proof (step_view dump s Hi) as H. rewrite E in H. destruct H as [H _].
  apply vstep_new_lines in H as (new & En & Hn). cbn [view_of v_str] in En.
  rewrite En. apply Forall_app. split; [exact Hs|].
  rewrite (view_j s Hi) in Hn. cbn [view_of v_cur v_lev] in Hn.
  pose proof (dist_of_range _ (inv_lev s Hi)) as Hd.
  pose proof (inv_j s Hi) as Hj. rewrite (inv_dist s Hi) in Hj.
  pose proof (prefix_length (line s) (j s)) as Hl.
  pose proof (cur_no_NUL s Hi) as Hc0.
  eapply Forall_impl; [|exact Hn]. cbn beta. unfold line_ok.
  intros l [(-> & Hc)|[(-> & Hc & _)|(-> & _)]].
  - split; [unfold LINELEN in *; lia | exact Hc0].
  - split.
    + rewrite length_app. cbn [length]. unfold LINELEN in *. lia.
    + rewrite in_app_iff. cbn. intros [H|[H|[]]]; [tauto | discriminate].
  - split.
    + rewrite length_app. unfold spaces. rewrite repeat_length. cbn [length].
      unfold LINELEN, MAXINDENT in *. lia.
    + rewrite in_app_iff. cbn. intros [H|[H|[]]]; [|discriminate].
      apply spaces_In in H. discriminate.
Qed.

Lemma reachable_lines_ok s :
  reachable line0 dump s -> Forall line_ok (str s).
Proof.
  induction 1 as [|s s' R IH E]; [constructor|].
  eapply step_lines_ok; eauto using reachable_inv.
Qed.

Lemma final_lines_ok s' :
  final line0 dump s' -> Forall line_ok (finish s').
Proof.
  intros F.
  destruct (final_facts line0 dump s' F) as (Hi & Hn & _ & _ & s & R & Ev).
  rewrite (finish_view s' Hi Hn). unfold vfinish. rewrite (view_j s' Hi).
  assert (Hs : Forall line_ok (str s')).
  { replace (str s') with (str s) by (now injection Ev).
    now apply reachable_lines_ok. }
  destruct (Z.gtb_spec (j s') 0) as [L|L]; [|exact Hs].
  apply Forall_app. split; [exact Hs|]. repeat constructor;
    cbn [view_of v_cur]; try (rewrite prefix_length by lia);
    [lia | apply (inv_j s' Hi) | now apply cur_no_NUL].
Qed.

(** The indent level grows no faster than the cursor moves. *)
Lemma vstep_lev_cursor v v' :
  vstep dump v = VContinue v' ->
  v_lev v' - v_lev v <= v_i v' - v_i v.
Proof.
  intros H. pose proof (proj1 (skip_idx_spec dump (length dump) (v_i v))).
  vstep_cases H; cbn [v_lev v_i]; lia.
Qed.

(** The values of the [int] variables at the test of the inner loop. The
    body adds or subtracts 1 and multiplies [indentLev] by 3, so on an
    input of [n] characters no value leaves [-1 .. max (3 * n + 3) 79]. *)
Lemma reachable_int_range s :
  reachable line0 dump s ->
  0 <= i s <= Z.of_nat (length dump)
  /\ 0 <= indentLev s <= i s
  /\ 0 <= indentDist s <= MAXINDENT
  /\ 0 <= j s <= LINELEN.
Proof.
  intros R. pose proof (reachable_inv line0 dump s R) as Hi.
  pose proof (dist_of_range _ (inv_lev s Hi)) as Hd.
  rewrite <- (inv_dist s Hi) in Hd.
  pose proof (inv_j s Hi) as Hj.
  split; [apply (reachable_pos line0 dump s R)|].
  split; [|split; [exact Hd | lia]].
  split; [apply (inv_lev s Hi)|].
  clear Hi Hd Hj. induction R as [|s s' R IH E]; [cbn; lia|].
  pose proof (step_view dump s (reachable_inv line0 dump s R)) as H.
  rewrite E in H. destruct H as [H _]. apply vstep_lev_cursor in H.
  cbn [view_of v_lev v_i] in H. lia.
Qed.

End Lines.

(** *** Close-groups *)

Section CloseGroup.

Variable dump : list ascii.

(** The step taken on a [")"]: it stays in the line being built when
    another [")"] follows, and closes that line otherwise. *)
Lemma step_close_group s :
  inv s -> j s < LINELEN -> dump_at dump (i s) = ")" ->
  exists s',
    step dump s = Continue s' /\ inv s'
    /\ view_of s'
       = if Ascii.eqb (dump_at dump (i s + 1)) ")"
         then mkView (i s + 1) (prefix (line s) (j s) ++ [")"])
                     (indentLev s) (str s)
         else mkView (skip_idx (length dump) dump (i s) + 1)
                     (spaces (indentDist s)) (indentLev s)
                     (str s ++ [prefix (line s) (j s) ++ [")"]]).
Proof.
  intros Hi Lj Ec. pose proof (step_view dump s Hi) as H.
  assert (V : vstep dump (view_of s)
              = VContinue
                  (if Ascii.eqb (dump_at dump (i s + 1)) ")"
                   then mkView (i s + 1) (prefix (line s) (j s) ++ [")"])
                               (indentLev s) (str s)
                   else mkView (skip_idx (length dump) dump (i s) + 1)
                               (spaces (indentDist s)) (indentLev s)
                               (str s ++ [prefix (line s) (j s) ++ [")"]]))).
  { unfold vstep. rewrite (view_j s Hi). cbn [view_of v_i v_cur v_lev v_str].
    rewrite Ec, (inv_dist s Hi).
    destruct (Z.ltb_spec (j s) LINELEN); [|lia]. cbn.
    now destruct (Ascii.eqb (dump_at dump (i s + 1)) ")"). }
  destruct (step dump s) as [s'|s']; destruct H as [H Hi'].
  - exists s'. split; [reflexivity|]. split; [exact Hi'|]. congruence.
  - rewrite V in H. discriminate.
Qed.

(** A run of [n] close-groups that ends at the cursor's [n]-th character
    and fits into the line is appended to it, and the line ends there. *)
Lemma close_group_run n : forall s,
  inv s -> (1 <= n)%nat ->
  (forall k, 0 <= k < Z.of_nat n -> dump_at dump (i s + k) = ")") ->
  dump_at dump (i s + Z.of_nat n) <> ")" ->
  j s + Z.of_nat n <= LINELEN ->
  exists s',
    steps n dump s = Some s' /\ inv s'
    /\ str s' = str s ++ [prefix (line s) (j s) ++ repeat ")" n]
    /\ j s' = indentDist s' /\ indentLev s' = indentLev s.
Proof.
  induction n as [|n IH]; intros s Hi Hn Hrun Hend Hfit; [lia|].
  destruct (step_close_group s Hi) as (s1 & E1 & Hi1 & V1);
    [lia | rewrite <- (Hrun 0) by lia; f_equal; lia |].
  cbn [steps]. rewrite E1.
  destruct n as [|n].
  - (* the last close-group of the run *)
    destruct (Ascii.eqb_spec (dump_at dump (i s + 1)) ")") as [E|_];
      [now elim Hend|].
    exists s1. split; [reflexivity|]. split; [exact Hi1|].
    pose proof (view_j s1 Hi1) as J1. unfold v_j in J1. rewrite V1 in J1.
    cbn in J1. rewrite spaces_length in J1
      by (rewrite (inv_dist s Hi); apply dist_of_range, (inv_lev s Hi)).
    injection V1 as _ _ L1 S1.
    split; [exact S1|]. split; [|exact L1].
    rewrite (inv_dist s1 Hi1), L1, <- (inv_dist s Hi). lia.
  - (* another close-group follows *)
    destruct (Ascii.eqb_spec (dump_at dump (i s + 1)) ")") as [_|E];
      [|elim E; apply Hrun; lia].
    pose proof (view_j s1 Hi1) as J1. unfold v_j in J1. rewrite V1 in J1.
    cbn [v_cur] in J1. rewrite length_app in J1. cbn [length] in J1.
    pose proof (inv_j s Hi) as Hj.
    pose proof (dist_of_range _ (inv_lev s Hi)) as Hd.
    rewrite <- (inv_dist s Hi) in Hd.
    rewrite Nat2Z.inj_add, prefix_length in J1 by lia. cbn in J1.
    injection V1 as I1 C1 L1 S1.
    destruct (IH s1 Hi1) as (s' & E & Hi' & S' & J' & L'); [lia | | | lia |].
    + intros k Hk. rewrite I1.
      replace (i s + 1 + k) with (i s + (k + 1)) by lia.
      apply Hrun. lia.
    + rewrite I1.
      replace (i s + 1 + Z.of_nat (S n)) with (i s + Z.of_nat (S (S n)))
        by lia.
      exact Hend.
    + exists s'. split; [exact E|]. split; [exact Hi'|].
      split; [|split; [exact J' | congruence]].
      rewrite S', S1, C1, <- app_assoc. reflexivity.
Qed.

End CloseGroup.

(** *** The result, from any state of the run *)

Section Result.

Variable line0 : buffer.
Variable dump : list ascii.

Lemma steps_snoc n : forall s0 s s',
  steps n dump s0 = Some s -> step dump s = Continue s' ->
  steps (S n) dump s0 = Some s'.
Proof.
  induction n as [|n IH]; intros s0 s s' E E'.
  - cbn in E. injection E as ->. cbn. now rewrite E'.
  - cbn [steps] in E. change (steps (S (S n)) dump s0)
      with (match step dump s0 with
            | Continue s1 => steps (S n) dump s1
            | Break _ => None
            end).
    destruct (step dump s0) as [s1|s1]; [|discriminate].
    now apply (IH s1 s s').
Qed.

Lemma reachable_steps s :
  reachable line0 dump s -> exists n, steps n dump (init line0) = Some s.
Proof.
  induction 1 as [|s s' _ (n & IH) E]; [now exists O|].
  exists (S n). now apply (steps_snoc n _ s).
Qed.

Lemma loop_after_steps n : forall s0 s s',
  steps n dump s0 = Some s -> step dump s = Break s' ->
  loop (S n) dump s0 = Some s'.
Proof.
  induction n as [|n IH]; intros s0 s s' E E'.
  - cbn in E. injection E as ->. cbn. now rewrite E'.
  - cbn [steps] in E. change (loop (S (S n)) dump s0)
      with (match step dump s0 with
            | Break s1 => Some s1
            | Continue s1 => loop (S n) dump s1
            end).
    destruct (step dump s0) as [s1|s1]; [|discriminate].
    now apply (IH s1 s s').
Qed.

(** The state at which the loop is left gives the result. *)
Lemma result_from_break s s' :
  reachable line0 dump s -> step dump s = Break s' ->
  pretty_format_node_dump line0 dump = Some (finish s').
Proof.
  intros R E. destruct (reachable_steps s R) as (n & En).
  pose proof (loop_after_steps n _ s s' En E) as L.
  destruct (run_final line0 dump) as (s'' & L' & _).
  unfold pretty_format_node_dump. rewrite L'. cbn.
  now rewrite (loop_fuel_irrelevant dump _ _ _ _ _ L' L).
Qed.

Lemma loop_str_grows fuel : forall s s',
  inv s -> loop fuel dump s = Some s' ->
  exists more, finish s' = str s ++ more.
Proof.
  induction fuel as [|fuel IH]; intros s s' Hi L; [discriminate|].
  cbn [loop] in L. pose proof (step_view dump s Hi) as H.
  destruct (step dump s) as [s1|s1] eqn:E.
  - destruct H as [H Hi1]. destruct (IH s1 s' Hi1 L) as (more & Em).
    apply vstep_new_lines in H as (new & En & _). cbn [view_of v_str] in En.
    exists (new ++ more). now rewrite Em, En, app_assoc.
  - injection L as <-. destruct H as (H & Hi1 & Hn).
    rewrite (finish_view s1 Hi1 Hn). unfold vfinish.
    assert (Ev : view_of s = view_of s1).
    { revert H. unfold vstep.
      destruct ((v_j (view_of s) <? LINELEN)
                && negb (Ascii.eqb (dump_at dump (v_i (view_of s))) NUL)).
      - repeat match goal with
               | |- context [Ascii.eqb ?a ?b] => destruct (Ascii.eqb a b)
               end; discriminate.
      - destruct (Ascii.eqb (dump_at dump (v_i (view_of s))) NUL);
          [congruence | discriminate]. }
    rewrite <- Ev. cbn [view_of v_str v_cur].
    destruct (v_j (view_of s) >? 0); eexists; [reflexivity|].
    symmetry. apply app_nil_r.
Qed.

(** The lines appended at any point of the run open the result. *)
Lemma reachable_output_prefix s :
  reachable line0 dump s ->
  exists more, pretty_format_node_dump line0 dump = Some (str s ++ more).
Proof.
  intros R.
  destruct (loop_terminates line0 dump (S (Z.to_nat (measure dump s))) s R)
    as (s' & L & s0 & R0 & E0).
  { pose proof (measure_nonneg dump s (reachable_pos line0 dump s R)). lia. }
  destruct (loop_str_grows _ s s' (reachable_inv line0 dump s R) L)
    as (more & Em).
  exists more. now rewrite (result_from_break s0 s' R0 E0), Em.
Qed.

(** A close-group at the very end of the input closes its line, and the
    indentation of the next line is all that is left for the final test. *)
Lemma close_group_at_end s :
  reachable line0 dump s -> inner_test dump s = true ->
  dump_at dump (i s) = ")" -> dump_at dump (i s + 1) = NUL ->
  pretty_format_node_dump line0 dump
  = Some (str s ++ [prefix (line s) (j s) ++ [")"]]
                ++ (if indentDist s >? 0 then [spaces (indentDist s)] else [])).
Proof.
  intros R Ht Ec En. pose proof (reachable_inv line0 dump s R) as Hi.
  unfold inner_test in Ht. apply andb_prop in Ht as [Hlt _].
  apply Z.ltb_lt in Hlt.
  destruct (step_close_group dump s Hi Hlt Ec) as (s1 & E1 & Hi1 & V1).
  rewrite En in V1. change (Ascii.eqb NUL ")") with false in V1.
  assert (Hk : skip_idx (length dump) dump (i s) = i s).
  { destruct (length dump); cbn [skip_idx]; [reflexivity|].
    now rewrite En. }
  rewrite Hk in V1.
  assert (R1 : reachable line0 dump s1)
    by (eapply reach_step; eassumption).
  pose proof (step_view dump s1 Hi1) as H. rewrite V1 in H.
  unfold vstep in H. cbn [v_i] in H. rewrite En in H.
  rewrite andb_false_r in H. change (Ascii.eqb NUL NUL) with true in H.
  cbn iota in H.
  destruct (step dump s1) as [s2|s2] eqn:E2; destruct H as [H Hi2];
    [discriminate|].
  destruct Hi2 as [Hi2 Hn2].
  rewrite (result_from_break s1 s2 R1 E2), (finish_view s2 Hi2 Hn2).
  injection H as _ Ecur _ Estr. unfold vfinish, v_j.
  cbn [view_of v_cur v_str]. rewrite <- Ecur, <- Estr.
  rewrite spaces_length
    by (rewrite (inv_dist s Hi); apply dist_of_range, (inv_lev s Hi)).
  destruct (indentDist s >? 0);
    [now rewrite <- app_assoc | now rewrite app_nil_r].
Qed.

End Result.

(** *** What the output keeps of the input *)

Section Kept.

Variable line0 : buffer.
Variable dump : list ascii.

(** A class of characters that has neither the space nor the line break. *)
Variable P : ascii -> bool.
Hypothesis P_space : P " " = false.
Hypothesis P_newline : P newline = false.

Lemma filter_spaces n : filter P (spaces n) = [].
Proof.
  unfold spaces. induction (Z.to_nat n) as [|m IH]; [reflexivity|].
  cbn. now rewrite P_space.
Qed.

Lemma filter_newline : filter P [newline] = [].
Proof.
  change (filter P [newline]) with (if P newline then [newline] else []).
  now rewrite P_newline.
Qed.

Lemma filter_firstn_next k :
  0 <= k -> dump_at dump k <> NUL ->
  filter P (firstn (Z.to_nat (k + 1)) dump)
  = filter P (firstn (Z.to_nat k) dump) ++ filter P [dump_at dump k].
Proof.
  intros H0 Hne. now rewrite firstn_next, filter_app.
Qed.

Lemma filter_firstn_skip n : forall k,
  0 <= k -> dump_at dump k <> NUL ->
  filter P (firstn (Z.to_nat (skip_idx n dump k + 1)) dump)
  = filter P (firstn (Z.to_nat (k + 1)) dump).
Proof.
  induction n as [|n IH]; intros k H0 Hne; cbn; [reflexivity|].
  destruct (Ascii.eqb_spec (dump_at dump (k + 1)) " ") as [E|E]; [|reflexivity].
  rewrite IH by (try lia; rewrite E; discriminate).
  rewrite filter_firstn_next by (try lia; rewrite E; discriminate).
  rewrite E. cbn. rewrite P_space. apply app_nil_r.
Qed.

Lemma inv_cur_indent s : inv s -> cur_indent (view_of s).
Proof.
  intros Hi. unfold cur_indent. cbn [view_of v_lev v_cur].
  pose proof (dist_of_range _ (inv_lev s Hi)) as Hd.
  rewrite <- (inv_dist s Hi) in *.
  rewrite prefix_firstn by (split; [lia | apply (inv_j s Hi)]).
  apply prefix_spaces, (inv_indent s Hi).
Qed.

Lemma cur_all_indent v :
  cur_indent v -> v_j v = dist_of (v_lev v) -> filter P (v_cur v) = [].
Proof.
  unfold cur_indent, v_j. intros H E. rewrite <- E in H at 1.
  rewrite Nat2Z.id, firstn_all in H. rewrite H. apply filter_spaces.
Qed.

Lemma vstep_kept v v' :
  cur_indent v -> 0 <= v_i v ->
  vstep dump v = VContinue v' ->
  kept P v = filter P (firstn (Z.to_nat (v_i v)) dump) ->
  kept P v' = filter P (firstn (Z.to_nat (v_i v')) dump).
Proof.
  intros Hc H0 H. unfold kept.
  pose proof (cur_all_indent v Hc) as Hall.
  vstep_cases H; cbn [v_i v_cur v_str]; intros K.
  all: rewrite ?filter_firstn_skip by assumption.
  all: rewrite ?filter_firstn_next by assumption.
  all: rewrite <- ?K.
  all: repeat rewrite ?text_of_app, ?text_of_one, ?filter_app,
         ?filter_spaces, ?filter_newline, ?app_nil_r, ?app_nil_l,
         <- ?app_assoc.
  all: rewrite ?Hall by assumption.
  all: rewrite ?app_nil_r; try reflexivity.
  all: repeat match goal with
              | E : dump_at dump _ = _ |- _ => rewrite E
              end; try reflexivity.
Qed.

Lemma reachable_kept s :
  reachable line0 dump s ->
  kept P (view_of s) = filter P (firstn (Z.to_nat (i s)) dump).
Proof.
  induction 1 as [|s s' R IH E]; [reflexivity|].
  pose proof (reachable_inv line0 dump s R) as Hi.
  pose proof (step_view dump s Hi) as H. rewrite E in H. destruct H as [H _].
  apply (vstep_kept (view_of s) (view_of s')); auto using inv_cur_indent.
  apply (reachable_pos line0 dump s R).
Qed.

(** The characters of class [P] in the result are those of the input, in
    the same order. *)
Lemma final_kept s' :
  final line0 dump s' ->
  filter P (text_of (finish s')) = filter P (c_string dump).
Proof.
  intros F.
  destruct (final_facts line0 dump s' F) as (Hi & Hn & He & Hp & s & R & Ev).
  rewrite (finish_view s' Hi Hn).
  assert (K : kept P (view_of s') = filter P (c_string dump)).
  { rewrite <- Ev, (reachable_kept s R).
    replace (i s) with (i s') by (now injection Ev). f_equal.
    apply c_string_firstn.
    - intros k Hk. pose proof (proj2 Hp (Z.of_nat k)) as X.
      unfold dump_at in X. rewrite Nat2Z.id in X. apply X. lia.
    - exact He. }
  rewrite <- K. unfold vfinish, kept.
  destruct (Z.gtb_spec (v_j (view_of s')) 0) as [L|L].
  - now rewrite text_of_app, text_of_one, !filter_app, filter_newline,
      app_nil_r.
  - unfold v_j in L. destruct (v_cur (view_of s')); [|cbn in L; lia].
    now rewrite app_nil_r.
Qed.

End Kept.

(** *** Nesting depth *)

Section Depth.

Variable dump : list ascii.

Lemma rest_cons k :
  pos_ok dump k -> dump_at dump k <> NUL ->
  rest dump k = dump_at dump k :: rest dump (k + 1).
Proof.
  intros [H0 Hp] Hne. unfold rest, dump_at.
  replace (Z.to_nat (k + 1)) with (S (Z.to_nat k)) by lia.
  apply skipn_c_string_cons. intros m Hm.
  destruct (Nat.eq_dec m (Z.to_nat k)) as [->|Hd]; [exact Hne|].
  pose proof (Hp (Z.of_nat m)) as X. unfold dump_at in X.
  rewrite Nat2Z.id in X. apply X. lia.
Qed.

Lemma rest_nil k :
  pos_ok dump k -> dump_at dump k = NUL -> rest dump k = [].
Proof.
  intros [H0 Hp] E. unfold rest. apply skipn_c_string_nil; [|exact E].
  intros m Hm. pose proof (Hp (Z.of_nat m)) as X. unfold dump_at in X.
  rewrite Nat2Z.id in X. apply X. lia.
Qed.

Lemma markers_rest_skip n : forall k,
  pos_ok dump (k + 1) ->
  filter is_marker (rest dump (skip_idx n dump k + 1))
  = filter is_marker (rest dump (k + 1)).
Proof.
  induction n as [|n IH]; intros k Hp; cbn [skip_idx]; [reflexivity|].
  destruct (Ascii.eqb_spec (dump_at dump (k + 1)) " ") as [E|E]; [|reflexivity].
  assert (Hne : dump_at dump (k + 1) <> NUL) by (rewrite E; discriminate).
  rewrite IH by (now apply pos_ok_next).
  rewrite (rest_cons (k + 1) Hp Hne), E. reflexivity.
Qed.

Lemma step_pos s s' :
  inv s -> pos_ok dump (i s) -> step dump s = Continue s' ->
  pos_ok dump (i s').
Proof.
  intros Hi Hp E.
  pose proof (step_view dump s Hi) as H. rewrite E in H.
  destruct H as [H _]. apply vstep_cursor in H. cbn in H.
  destruct H as [(-> & _)|(_ & Hne & [-> | ->])];
    [exact Hp | now apply pos_ok_next | now apply pos_ok_skip].
Qed.

Lemma depth_trace_fold fuel : forall s,
  inv s -> pos_ok dump (i s) -> measure dump s < Z.of_nat fuel ->
  depth_trace fuel dump s
  = depth_fold (indentLev s) (filter is_marker (rest dump (i s))).
Proof.
  induction fuel as [|fuel IH]; intros s Hi Hp Hm.
  - pose proof (measure_nonneg dump s Hp). lia.
  - cbn [depth_trace].
    pose proof (step_view dump s Hi) as H.
    destruct (step dump s) as [s1|s1] eqn:E.
    + destruct H as [H Hi1].
      rewrite (IH s1 Hi1 (step_pos s s1 Hi Hp E))
        by (pose proof (step_measure dump s s1 Hi Hp E); lia).
      unfold inner_test.
      unfold vstep, flushed in H. rewrite (view_j s Hi) in H.
      cbn [view_of v_i v_cur v_lev v_str] in H.
      set (c := dump_at dump (i s)) in *.
      destruct (Z.ltb_spec (j s) LINELEN) as [Lj|Lj];
        destruct (Ascii.eqb_spec c NUL) as [En|En];
        cbn [andb negb] in *; try discriminate H.
      * (* a pass through the inner body *)
        rewrite (rest_cons (i s) Hp En). fold c.
        assert (Hp1 : pos_ok dump (i s + 1)) by (now apply pos_ok_next).
        destruct (Ascii.eqb_spec c "}") as [Ec|Ec1].
        { injection H as Ei _ El _.
          rewrite <- Ei, <- El, markers_rest_skip by exact Hp1.
          rewrite Ec. reflexivity. }
        destruct (Ascii.eqb_spec c ")") as [Ec|Ec2].
        { destruct (Ascii.eqb (dump_at dump (i s + 1)) ")");
            injection H as Ei _ El _; rewrite <- Ei, <- El;
            rewrite ?markers_rest_skip by exact Hp1;
            rewrite Ec; reflexivity. }
        destruct (Ascii.eqb_spec c "{") as [Ec|Ec3].
        { injection H as Ei _ El _. rewrite <- Ei, <- El, Ec. reflexivity. }
        destruct (Ascii.eqb_spec c ":") as [Ec|Ec4].
        { injection H as Ei _ El _. rewrite <- Ei, <- El, Ec. reflexivity. }
        injection H as Ei _ El _. rewrite <- Ei, <- El.
        cbn [filter]. unfold is_marker.
        destruct (Ascii.eqb_spec c "{"); [contradiction|].
        destruct (Ascii.eqb_spec c "}"); [contradiction|].
        destruct (Ascii.eqb_spec c ")"); [contradiction|].
        destruct (Ascii.eqb_spec c ":"); [contradiction|].
        destruct (Ascii.eqb_spec c "(") as [Ec|Ec5]; cbn [orb app];
          [|reflexivity].
        cbn [depth_fold]. rewrite Ec. reflexivity.
      * (* the width bound *)
        injection H as Ei _ El _. rewrite <- Ei, <- El. reflexivity.
    + destruct H as (H & _ & _). symmetry.
      assert (En : dump_at dump (i s) = NUL).
      { revert H. unfold vstep.
        destruct ((v_j (view_of s) <? LINELEN)
                  && negb (Ascii.eqb (dump_at dump (v_i (view_of s))) NUL)).
        - repeat match goal with
                 | |- context [Ascii.eqb ?a ?b] => destruct (Ascii.eqb a b)
                 end; discriminate.
        - destruct (Ascii.eqb_spec (dump_at dump (v_i (view_of s))) NUL);
            [auto | discriminate]. }
      now rewrite (rest_nil (i s) Hp En).
Qed.

(** The depths met in the run on [dump] are those of its markers. *)
Lemma nesting_depths_fold line0 :
  nesting_depths line0 dump = depth_fold 0 (filter is_marker (c_string dump)).
Proof.
  unfold nesting_depths. rewrite depth_trace_fold.
  - reflexivity.
  - apply init_inv.
  - split; [cbn; lia | cbn; intros; lia].
  - unfold measure, fuel_for.
    change (i (init line0)) with 0.
    change (j (init line0) <? LINELEN) with true. lia.
Qed.

End Depth.

Lemma filter_marker_respace text :
  filter is_marker (respace text) = filter is_marker text.
Proof.
  induction text as [|c text IH]; [reflexivity|]. cbn [respace map filter].
  fold (respace text). rewrite IH.
  destruct (Ascii.eqb_spec c newline) as [->|_]; reflexivity.
Qed.

Lemma respace_no_NUL text : ~ In NUL text -> ~ In NUL (respace text).
Proof.
  intros H Hin. apply in_map_iff in Hin as (c & E & Hc).
  destruct (Ascii.eqb_spec c newline); [discriminate | congruence].
Qed.

Lemma text_of_no_NUL lines :
  Forall (fun l => ~ In NUL l) lines -> ~ In NUL (text_of lines).
Proof.
  induction 1 as [|l lines Hl _ IH]; [tauto|].
  change (text_of (l :: lines)) with ((l ++ [newline]) ++ text_of lines).
  rewrite !in_app_iff. cbn.
  intros [[H|[H|[]]]|H]; [tauto | discriminate | tauto].
Qed.

(** *** Where the characters of the lines come from *)

Lemma skipn_In_list {A} (x : A) n l : In x (skipn n l) -> In x l.
Proof.
  intros H. rewrite <- (firstn_skipn n l). apply in_or_app. now right.
Qed.

Lemma dump_at_In_c_string dump k :
  pos_ok dump k -> dump_at dump k <> NUL -> In (dump_at dump k) (c_string dump).
Proof.
  intros Hp Hne. apply (skipn_In_list _ (Z.to_nat k)).
  fold (rest dump k). rewrite (rest_cons dump k Hp Hne). now left.
Qed.

Section Chars.

Variable line0 : buffer.
Variable dump : list ascii.

(** A class of characters that has the space and those of the input. *)
Variable Q : ascii -> Prop.
Hypothesis Q_space : Q " ".
Hypothesis Q_input : forall c, In c (c_string dump) -> Q c.

Lemma spaces_Q n : Forall Q (spaces n).
Proof. apply Forall_forall. intros c Hc. now rewrite (spaces_In c n Hc). Qed.

Lemma vstep_cur v v' :
  vstep dump v = VContinue v' ->
  (exists n, v_cur v' = spaces n)
  \/ (dump_at dump (v_i v) <> NUL
      /\ ((exists n, v_cur v' = spaces n ++ [dump_at dump (v_i v)])
          \/ v_cur v' = v_cur v ++ [dump_at dump (v_i v)])).
Proof.
  unfold vstep.
  destruct (Z.ltb_spec (v_j v) LINELEN) as [Lj|Lj];
    destruct (Ascii.eqb_spec (dump_at dump (v_i v)) NUL) as [En|En]; cbn;
    try discriminate; [|intros H; injection H as <-; left; cbn; eauto].
  destruct (Ascii.eqb_spec (dump_at dump (v_i v)) "}") as [Ec|_];
    [intros H; injection H as <-; left; cbn; eauto|].
  destruct (Ascii.eqb_spec (dump_at dump (v_i v)) ")") as [Ec|_].
  { destruct (Ascii.eqb (dump_at dump (v_i v + 1)) ")");
      intros H; injection H as <-; [|left; cbn; eauto].
    right. split; [exact En|]. right. cbn. now rewrite Ec. }
  destruct (Ascii.eqb_spec (dump_at dump (v_i v)) "{") as [Ec|_];
    [intros H; injection H as <-; right; split; [exact En|]; left;
     rewrite Ec; cbn; eauto|].
  destruct (Ascii.eqb_spec (dump_at dump (v_i v)) ":") as [Ec|_];
    [intros H; injection H as <-; right; split; [exact En|]; left;
     rewrite Ec; cbn; eauto|].
  intros H. injection H as <-. right. split; [exact En|]. now right.
Qed.

Lemma reachable_chars s :
  reachable line0 dump s ->
  Forall Q (prefix (line s) (j s)) /\ Forall (Forall Q) (str s).
Proof.
  induction 1 as [|s s' R [IHc IHs] E]; [split; constructor|].
  pose proof (reachable_inv line0 dump s R) as Hi.
  pose proof (reachable_pos line0 dump s R) as Hp.
  pose proof (step_view dump s Hi) as H. rewrite E in H. destruct H as [H _].
  split.
  - apply vstep_cur in H. cbn [view_of v_cur v_i] in H.
    destruct H as [(n & ->)|(Hne & [(n & ->)| ->])].
    + apply spaces_Q.
    + apply Forall_app. split; [apply spaces_Q|]. repeat constructor.
      now apply Q_input, dump_at_In_c_string.
    + apply Forall_app. split; [exact IHc|]. repeat constructor.
      now apply Q_input, dump_at_In_c_string.
  - apply vstep_new_lines in H as (new & En & Hn). cbn [view_of v_str] in En.
    rewrite En. apply Forall_app. split; [exact IHs|].
    eapply Forall_impl; [|exact Hn]. cbn beta. cbn [view_of v_cur v_lev].
    intros l [(-> & _)|[(-> & _ & Ec)|(-> & Ec)]]; [exact IHc | |].
    + apply Forall_app. split; [exact IHc|]. repeat constructor.
      rewrite <- Ec. apply Q_input, dump_at_In_c_string; [exact Hp|].
      rewrite Ec. discriminate.
    + apply Forall_app. split; [apply spaces_Q|]. repeat constructor.
      rewrite <- Ec. apply Q_input, dump_at_In_c_string; [exact Hp|].
      rewrite Ec. discriminate.
Qed.

Lemma final_chars s' :
  final line0 dump s' -> Forall (Forall Q) (finish s').
Proof.
  intros F.
  destruct (final_facts line0 dump s' F) as (Hi & Hn & _ & _ & s & R & Ev).
  rewrite (finish_view s' Hi Hn). unfold vfinish. rewrite <- Ev.
  destruct (reachable_chars s R) as [Hc Hs]. cbn [view_of v_str v_cur].
  destruct (v_j (view_of s) >? 0); [|exact Hs].
  apply Forall_app. split; [exact Hs | now repeat constructor].
Qed.

End Chars.

(** Lines without a line break inside are the pieces of their text. *)
Lemma split_on_no_sep sep l :
  Forall (fun c => sep c = false) l -> split_on sep l = [l].
Proof.
  induction 1 as [|c l Hc _ IH]; [reflexivity|].
  cbn [split_on]. now rewrite Hc, IH.
Qed.

Lemma split_on_text_of lines :
  Forall (Forall (fun c => Ascii.eqb c newline = false)) lines ->
  split_on (fun c => Ascii.eqb c newline) (text_of lines) = lines ++ [[]].
Proof.
  induction 1 as [|l lines Hl _ IH]; [reflexivity|].
  change (text_of (l :: lines)) with ((l ++ [newline]) ++ text_of lines).
  rewrite <- app_assoc. cbn [app].
  rewrite split_on_app_sep by reflexivity.
  now rewrite IH, split_on_no_sep.
Qed.

End PrettyFacts.

(** ** format_node_dump: what a pass does *)

Module WrapFacts.
Import Wrap WrapView.
#[local] Arguments store : simpl never.

Section Pass.

Variable dump : list ascii.

Lemma copy_loop_spec n : forall i j line,
  Z.of_nat n = LINELEN - j ->
  exists m line',
    copy_loop n dump i j line = (i + m, j + m, line')
    /\ 0 <= m <= Z.of_nat n
    /\ (forall k, 0 <= k < m -> dump_at dump (i + k) <> NUL)
    /\ (forall k, 0 <= k < m -> line' (j + k) = dump_at dump (i + k))
    /\ (forall x, x < j -> line' x = line x)
    /\ (j + m = LINELEN \/ dump_at dump (i + m) = NUL).
Proof.
  induction n as [|n IH]; intros i j line Hn; cbn [copy_loop].
  - exists 0, line. rewrite !Z.add_0_r.
    repeat split; try lia; try (intros; lia); auto.
  - destruct (Z.ltb_spec j LINELEN) as [Lj|Lj]; [|lia].
    destruct (Ascii.eqb_spec (dump_at dump i) NUL) as [En|En]; cbn [andb negb].
    + exists 0, line. rewrite !Z.add_0_r.
      repeat split; try lia; try (intros; lia); auto.
    + destruct (IH (i + 1) (j + 1) (store line j (dump_at dump i)))
        as (m & line' & E & Hm & Hne & Hl & Hout & Hex); [lia|].
      exists (m + 1), line'. rewrite E.
      replace (i + (m + 1)) with (i + 1 + m) by lia.
      replace (j + (m + 1)) with (j + 1 + m) by lia.
      split; [reflexivity|]. split; [lia|].
      split; [|split; [|split]].
      * intros k Hk. destruct (Z.eq_dec k 0) as [->|Hk0];
          [now rewrite Z.add_0_r|].
        replace (i + k) with (i + 1 + (k - 1)) by lia. apply Hne. lia.
      * intros k Hk. destruct (Z.eq_dec k 0) as [->|Hk0].
        -- rewrite !Z.add_0_r, Hout by lia. apply store_same.
        -- replace (i + k) with (i + 1 + (k - 1)) by lia.
           replace (j + k) with (j + 1 + (k - 1)) by lia. apply Hl. lia.
      * intros x Hx. rewrite Hout by lia. apply store_other. lia.
      * exact Hex.
Qed.

Lemma scan_back_spec line n : forall k,
  0 <= k <= Z.of_nat n ->
  let r := scan_back n line k in
  0 <= r <= k /\ (0 < r -> line r = " ")
  /\ forall x, r < x <= k -> line x <> " ".
Proof.
  induction n as [|n IH]; intros k Hk; cbn [scan_back].
  - cbn zeta; repeat split; try lia; intros x Hx; lia.
  - destruct (Z.gtb_spec k 0) as [Lk|Lk].
    + destruct (Ascii.eqb_spec (line k) " ") as [E|E].
      * cbn zeta; repeat split; try lia; auto; intros x Hx; lia.
      * destruct (IH (k - 1)) as (H1 & H2 & H3); [lia|].
        cbn zeta; repeat split; try lia; auto.
        intros x Hx. destruct (Z.eq_dec x k) as [->|Hd]; [exact E|].
        apply H3. lia.
    + cbn zeta; repeat split; try lia; intros x Hx; lia.
Qed.

Lemma wrap_c_str_stop line n :
  0 <= n <= LINELEN ->
  (forall k, 0 <= k < n -> line k <> NUL) ->
  line n = NUL ->
  c_str line = prefix line n.
Proof.
  intros Hn. apply c_str_from_stop. unfold LINELEN in *. lia.
Qed.

Lemma prefix_slice line a n :
  0 <= n ->
  (forall k, 0 <= k < n -> line k = dump_at dump (a + k)) ->
  prefix line n = slice dump a (Z.to_nat n).
Proof.
  intros Hn H. unfold prefix, slice. apply map_ext_in. intros k Hk.
  apply in_seq in Hk. apply H. lia.
Qed.

(** The line appended when the buffer holds [dump[a .. a+n-1]] and is cut
    at [n]. *)
Lemma c_str_slice line a n :
  0 <= n <= LINELEN ->
  (forall k, 0 <= k < n -> line k = dump_at dump (a + k)) ->
  (forall k, 0 <= k < n -> dump_at dump (a + k) <> NUL) ->
  c_str (store line n NUL) = slice dump a (Z.to_nat n).
Proof.
  intros Hn Hl Hne. rewrite (wrap_c_str_stop _ n).
  - apply prefix_slice; [lia|]. intros k Hk. rewrite store_other by lia. auto.
  - exact Hn.
  - intros k Hk. rewrite store_other by lia. rewrite Hl by lia. auto.
  - apply store_same.
Qed.

(** What a pass through the body of [for (;;)] does, in terms of the
    input: it either ends the run on the NUL found within the next
    [LINELEN] characters, or appends the next [len] characters as a line
    and moves the cursor past them and past [sep] more ([sep = 1]: the
    space consumed at the break; [sep = 0]: no space was found). *)
Lemma iter_spec s :
  match iter dump s with
  | Break j s' =>
      0 <= j <= LINELEN /\ i s' = i s + j /\ str s' = str s
      /\ dump_at dump (i s + j) = NUL
      /\ (forall k, 0 <= k < j -> dump_at dump (i s + k) <> NUL)
      /\ finish (j, s')
         = (if j >? 0 then str s ++ [slice dump (i s) (Z.to_nat j)]
            else str s)
      /\ no_space_found dump s = false
  | Continue s' =>
      exists len sep,
        1 <= len <= LINELEN
        /\ str s' = str s ++ [slice dump (i s) (Z.to_nat len)]
        /\ i s' = i s + len + sep
        /\ (forall k, 0 <= k <= LINELEN -> dump_at dump (i s + k) <> NUL)
        /\ ((sep = 1 /\ dump_at dump (i s + len) = " "
             /\ no_space_found dump s = false)
            \/ (sep = 0 /\ len = LINELEN /\ no_space_found dump s = true
                /\ forall x, 1 <= x <= LINELEN ->
                             dump_at dump (i s + x) <> " "))
  end.
Proof.
  assert (HL : LINELEN = 78) by reflexivity.
  unfold iter, no_space_found.
  destruct (copy_loop_spec (Z.to_nat LINELEN) (i s) 0 (line s))
    as (m & l1 & E & Hm & Hne & Hl & _ & Hex); [lia|].
  rewrite E. clear E. rewrite Z.add_0_l in *.
  assert (Hl' : forall k, 0 <= k < m -> l1 k = dump_at dump (i s + k))
    by (intros k Hk; rewrite <- Hl by lia; f_equal; lia).
  clear Hl.
  destruct (Ascii.eqb_spec (dump_at dump (i s + m)) NUL) as [En|En].
  - (* the end of the input *)
    cbn [i str andb negb]. repeat split; try lia; auto.
    unfold finish. cbn [str line]. destruct (m >? 0); [|reflexivity].
    unfold append_line. f_equal. f_equal. apply c_str_slice; auto; lia.
  - destruct Hex as [Hex|Hex]; [|contradiction].
    assert (Hall : forall k, 0 <= k <= LINELEN ->
                             dump_at dump (i s + k) <> NUL).
    { intros k Hk. destruct (Z.eq_dec k m) as [->|Hd]; [exact En|].
      apply Hne. lia. }
    destruct (Ascii.eqb_spec (dump_at dump (i s + m)) " ") as [Es|Es].
    + (* ok to break at adjacent space *)
      exists m, 1. cbn [i str andb negb]. split; [lia|].
      split; [unfold append_line; f_equal; f_equal; apply c_str_slice;
              auto; lia|].
      split; [lia|]. split; [exact Hall|]. left. auto.
    + destruct (scan_back_spec l1 (Z.to_nat m) (m - 1)) as (H1 & H2 & H3);
        [lia|].
      set (k := scan_back (Z.to_nat m) l1 (m - 1)) in *.
      destruct (Z.gtb_spec k 0) as [Lk|Lk]; cbn [i str andb negb].
      * (* back up; will reprint all after space *)
        exists k, 1. split; [lia|].
        split; [unfold append_line; f_equal; f_equal; apply c_str_slice;
                [lia | intros; apply Hl'; lia | intros; apply Hne; lia]|].
        split; [lia|]. split; [exact Hall|]. left.
        split; [reflexivity|]. split; [|reflexivity].
        rewrite <- Hl' by lia. apply H2. lia.
      * (* no space to break at *)
        exists m, 0. split; [lia|].
        split; [unfold append_line; f_equal; f_equal; apply c_str_slice;
                auto; lia|].
        split; [lia|]. split; [exact Hall|]. right.
        split; [reflexivity|]. split; [lia|]. split; [reflexivity|].
        intros x Hx. destruct (Z.eq_dec x m) as [->|Hd]; [exact Es|].
        rewrite <- Hl' by lia. apply H3. lia.
Qed.

End Pass.


Lemma slice_length dump a n : length (slice dump a n) = n.
Proof. unfold slice. now rewrite length_map, length_seq. Qed.

Lemma slice_snoc dump a n :
  slice dump a (S n) = slice dump a n ++ [dump_at dump (a + Z.of_nat n)].
Proof. unfold slice. now rewrite seq_S, map_app. Qed.

Lemma slice_In dump a n c :
  In c (slice dump a n) ->
  exists k, 0 <= k < Z.of_nat n /\ dump_at dump (a + k) = c.
Proof.
  unfold slice. intros H. apply in_map_iff in H as (k & E & Hk).
  apply in_seq in Hk. exists (Z.of_nat k). split; [lia | exact E].
Qed.

Lemma firstn_slice dump k : forall n,
  0 <= k ->
  (forall x, 0 <= x < Z.of_nat n -> dump_at dump (k + x) <> NUL) ->
  firstn (Z.to_nat (k + Z.of_nat n)) dump
  = firstn (Z.to_nat k) dump ++ slice dump k n.
Proof.
  induction n as [|n IH]; intros Hk Hne.
  - rewrite Z.add_0_r. cbn. now rewrite app_nil_r.
  - replace (k + Z.of_nat (S n)) with (k + Z.of_nat n + 1) by lia.
    rewrite firstn_next by (try lia; apply Hne; lia).
    rewrite IH by (try lia; intros x Hx; apply Hne; lia).
    now rewrite slice_snoc, app_assoc.
Qed.

Section WRun.

Variable line0 : buffer.
Variable dump : list ascii.

(** The part of the input a pass consumes: the appended line and the
    separator after it. *)
Lemma iter_consumes s s' :
  pos_ok dump (i s) -> iter dump s = Continue s' ->
  exists l sp,
    str s' = str s ++ [l]
    /\ firstn (Z.to_nat (i s')) dump = firstn (Z.to_nat (i s)) dump ++ l ++ sp
    /\ 1 <= Z.of_nat (length l) <= LINELEN /\ ~ In NUL l
    /\ i s + Z.of_nat (length l) + Z.of_nat (length sp) = i s'
    /\ pos_ok dump (i s')
    /\ ((sp = [" "] /\ no_space_found dump s = false)
        \/ (sp = [] /\ no_space_found dump s = true)).
Proof.
  intros [H0 Hp] E. pose proof (iter_spec dump s) as H. rewrite E in H.
  destruct H as (len & sep & Hlen & Hs & Hi & Hne & Hc).
  exists (slice dump (i s) (Z.to_nat len)).
  assert (Hpos : pos_ok dump (i s')).
  { assert (Hb : forall k, 0 <= k < i s' -> dump_at dump k <> NUL).
    { intros k Hk. destruct (Z_lt_le_dec k (i s)); [apply Hp; lia|].
      replace k with (i s + (k - i s)) by lia. apply Hne.
      destruct Hc as [(-> & _)|(-> & _)]; lia. }
    split; [|exact Hb].
    assert (i s' - 1 < Z.of_nat (length dump));
      [apply dump_at_inside; [|apply Hb];
       destruct Hc as [(-> & _)|(-> & _)]; lia
      | lia]. }
  assert (Hf : firstn (Z.to_nat (i s + len)) dump
               = firstn (Z.to_nat (i s)) dump
                 ++ slice dump (i s) (Z.to_nat len)).
  { rewrite <- (Z2Nat.id len) at 1 by lia. apply firstn_slice; [lia|].
    intros x Hx. apply Hne. lia. }
  assert (Hnn : ~ In NUL (slice dump (i s) (Z.to_nat len))).
  { intros Hin. apply slice_In in Hin as (k & Hk & Ek).
    apply (Hne k); [lia | exact Ek]. }
  destruct Hc as [(-> & Esp & Hn)|(-> & -> & Hn & Hx)].
  - exists [" "]. split; [exact Hs|]. split.
    + rewrite Hi, firstn_next, Hf, Esp, <- app_assoc
        by (try lia; apply Hne; lia).
      reflexivity.
    + rewrite slice_length. cbn [length].
      split; [lia|]. split; [exact Hnn|]. split; [lia|].
      split; [exact Hpos|]. left. auto.
  - exists []. split; [exact Hs|]. split.
    + rewrite Hi, Z.add_0_r, Hf, app_nil_r. reflexivity.
    + rewrite slice_length. cbn [length].
      split; [lia|]. split; [exact Hnn|]. split; [lia|].
      split; [exact Hpos|]. right. auto.
Qed.

Lemma wrap_reachable_pos s : reachable line0 dump s -> pos_ok dump (i s).
Proof.
  induction 1 as [|s s' R IH E].
  - split; [cbn; lia | cbn; intros; lia].
  - destruct (iter_consumes s s' IH E) as (l & sp & _ & _ & _ & _ & _ & H & _).
    exact H.
Qed.

(** Every pass but the last moves the cursor forward. *)
Lemma iter_progress s s' :
  pos_ok dump (i s) -> iter dump s = Continue s' -> i s < i s'.
Proof.
  intros Hp E.
  destruct (iter_consumes s s' Hp E) as (l & sp & _ & _ & Hl & _ & Hi & _).
  lia.
Qed.

Lemma wrap_loop_terminates fuel s :
  reachable line0 dump s -> Z.of_nat (length dump) - i s < Z.of_nat fuel ->
  exists j s', loop fuel dump s = Some (j, s') /\ final line0 dump j s'.
Proof.
  revert s. induction fuel as [|fuel IH]; intros s R Hm.
  - pose proof (wrap_reachable_pos s R) as [H _]. lia.
  - cbn [loop]. destruct (iter dump s) as [s1|j s1] eqn:E.
    + apply IH; [eapply reach_iter; eassumption|].
      pose proof (iter_progress s s1 (wrap_reachable_pos s R) E). lia.
    + exists j, s1. split; [reflexivity | exists s; auto].
Qed.

Lemma wrap_loop_fuel_irrelevant fuel1 fuel2 s r1 r2 :
  loop fuel1 dump s = Some r1 -> loop fuel2 dump s = Some r2 -> r1 = r2.
Proof.
  revert fuel2 s.
  induction fuel1 as [|fuel1 IH]; intros fuel2 s; [discriminate|].
  destruct fuel2 as [|fuel2]; [discriminate|]. cbn [loop].
  destruct (iter dump s) as [s'|j s']; [apply IH | congruence].
Qed.

Lemma wrap_run_final :
  exists j s', loop (S (length dump)) dump (init line0) = Some (j, s')
               /\ final line0 dump j s'.
Proof.
  apply wrap_loop_terminates; [constructor | cbn [init i]; lia].
Qed.

(** The result: the lines of the last state and the rest of the input. *)
Lemma final_result j s' :
  final line0 dump j s' ->
  exists s last,
    reachable line0 dump s
    /\ finish (j, s') = str s ++ (if j >? 0 then [last] else [])
    /\ c_string dump = firstn (Z.to_nat (i s)) dump ++ last
    /\ Z.of_nat (length last) = j /\ 0 <= j <= LINELEN /\ ~ In NUL last.
Proof.
  intros (s & R & E). pose proof (iter_spec dump s) as H. rewrite E in H.
  destruct H as (Hj & Hi & Hs & Hn & Hne & Hf & _).
  pose proof (wrap_reachable_pos s R) as [H0 Hp].
  exists s, (slice dump (i s) (Z.to_nat j)).
  split; [exact R|]. split.
  - rewrite Hf. destruct (j >? 0); [reflexivity | now rewrite app_nil_r].
  - split; [|split; [rewrite slice_length; lia|split; [exact Hj|]]].
    + rewrite <- firstn_slice by (try lia; intros x Hx; apply Hne; lia).
      symmetry. apply c_string_firstn.
      * intros k Hk. destruct (Z_lt_le_dec (Z.of_nat k) (i s)) as [L|L].
        -- pose proof (Hp (Z.of_nat k)) as X. unfold dump_at in X.
           rewrite Nat2Z.id in X. apply X. lia.
        -- pose proof (Hne (Z.of_nat k - i s)) as X. unfold dump_at in X.
           replace (Z.to_nat (i s + (Z.of_nat k - i s))) with k in X by lia.
           apply X. lia.
      * rewrite Z2Nat.id by lia. exact Hn.
    + intros Hin. apply slice_In in Hin as (k & Hk & Ek).
      apply (Hne k); [lia | exact Ek].
Qed.

End WRun.


(** *** The result, from any state of the run *)

Section WResult.

Variable line0 : buffer.
Variable dump : list ascii.

Lemma loop_from_reachable s :
  reachable line0 dump s ->
  forall fuel r, loop fuel dump s = Some r ->
                 exists fuel0, loop fuel0 dump (init line0) = Some r.
Proof.
  induction 1 as [|s s1 _ IH E]; intros fuel r L; [now exists fuel|].
  apply (IH (S fuel)). cbn [loop]. now rewrite E.
Qed.

Lemma wrap_result_from_loop s fuel r :
  reachable line0 dump s -> loop fuel dump s = Some r ->
  format_node_dump line0 dump = Some (finish r).
Proof.
  intros R L. destruct (loop_from_reachable s R fuel r L) as (fuel0 & L0).
  destruct (wrap_run_final line0 dump) as (j & s' & L' & _).
  unfold format_node_dump. rewrite L'. cbn [option_map].
  now rewrite (wrap_loop_fuel_irrelevant dump _ _ _ _ _ L' L0).
Qed.

Lemma wrap_loop_str_grows fuel : forall s r,
  loop fuel dump s = Some r -> exists more, finish r = str s ++ more.
Proof.
  induction fuel as [|fuel IH]; intros s r L; [discriminate|].
  cbn [loop] in L. pose proof (iter_spec dump s) as H.
  destruct (iter dump s) as [s1|j s1].
  - destruct (IH s1 r L) as (more & Em).
    destruct H as (len & sep & _ & Hs & _). rewrite Hs in Em.
    eexists. rewrite Em, <- app_assoc. reflexivity.
  - injection L as <-. destruct H as (_ & _ & _ & _ & _ & Hf & _).
    rewrite Hf. destruct (j >? 0); eexists; [reflexivity|].
    symmetry. apply app_nil_r.
Qed.

(** The lines appended at any point of the run open the result. *)
Lemma wrap_output_prefix s :
  reachable line0 dump s ->
  exists more, format_node_dump line0 dump = Some (str s ++ more).
Proof.
  intros R.
  destruct (wrap_loop_terminates line0 dump
              (S (Z.to_nat (Z.of_nat (length dump) - i s))) s R)
    as (j & s' & L & _).
  { pose proof (wrap_reachable_pos line0 dump s R) as [H _]. lia. }
  destruct (wrap_loop_str_grows _ s (j, s') L) as (more & Em).
  exists more. now rewrite (wrap_result_from_loop s _ (j, s') R L), Em.
Qed.

End WResult.

Lemma weave_snoc lines seps l sp :
  length seps = length lines ->
  weave (lines ++ [l]) (seps ++ [sp]) = weave lines seps ++ l ++ sp.
Proof.
  unfold weave. revert seps.
  induction lines as [|l0 lines IH]; intros [|s0 seps] H; try discriminate H.
  - cbn. now rewrite app_nil_r.
  - cbn [app combine map concat fst snd]. rewrite IH by (now injection H).
    now rewrite !app_assoc.
Qed.

Lemma c_string_prefix dump : forall n,
  (forall k, (k < n)%nat -> nth k dump NUL <> NUL) ->
  exists post, c_string dump = firstn n dump ++ post.
Proof.
  induction dump as [|c dump IH]; intros n H.
  - exists []. now destruct n.
  - destruct n as [|n]; [now exists (c_string (c :: dump))|].
    cbn [c_string firstn]. destruct (Ascii.eqb_spec c NUL) as [E|E].
    + elim (H O); [lia | exact E].
    + destruct (IH n) as (post & ->);
        [intros k Hk; apply (H (S k)); lia|].
      now exists post.
Qed.

Lemma c_string_nth dump : forall k,
  (k < length (c_string dump))%nat ->
  nth k dump NUL = nth k (c_string dump) NUL /\ nth k dump NUL <> NUL.
Proof.
  induction dump as [|c dump IH]; intros k Hk; cbn [c_string] in *;
    [cbn in Hk; lia|].
  destruct (Ascii.eqb_spec c NUL) as [E|E]; [cbn in Hk; lia|].
  destruct k as [|k]; cbn [nth]; [now split|].
  apply IH. cbn in Hk. lia.
Qed.

Section WOutput.

Variable line0 : buffer.
Variable dump : list ascii.

Lemma reachable_wlines s :
  reachable line0 dump s -> Forall wline_ok (str s).
Proof.
  induction 1 as [|s s' R IH E]; [constructor|].
  destruct (iter_consumes dump s s' (wrap_reachable_pos line0 dump s R) E)
    as (l & sp & -> & _ & Hl & Hn & _).
  apply Forall_app. split; [exact IH|]. now repeat constructor.
Qed.

Lemma final_wlines j s' :
  final line0 dump j s' -> Forall wline_ok (finish (j, s')).
Proof.
  intros F. destruct (final_result line0 dump j s' F)
    as (s & last & R & -> & _ & Hl & Hj & Hn).
  apply Forall_app. split; [now apply reachable_wlines|].
  destruct (Z.gtb_spec j 0); [|constructor].
  repeat constructor; [lia | lia | exact Hn].
Qed.

(** The input up to the cursor is the lines appended, each followed by
    the space consumed at its break, if one was. *)
Lemma reachable_weave s :
  reachable line0 dump s ->
  exists seps,
    length seps = length (str s) /\ Forall sep_ok seps
    /\ firstn (Z.to_nat (i s)) dump = weave (str s) seps.
Proof.
  induction 1 as [|s s' R (seps & Hlen & Hok & Hw) E].
  - exists []. repeat split; constructor.
  - destruct (iter_consumes dump s s' (wrap_reachable_pos line0 dump s R) E)
      as (l & sp & -> & Hf & _ & _ & _ & _ & Hc).
    exists (seps ++ [sp]). split; [rewrite !length_app; cbn; lia|].
    split.
    + apply Forall_app. split; [exact Hok|]. constructor; [|constructor].
      destruct Hc as [(-> & _)|(-> & _)]; [now right | now left].
    + now rewrite Hf, Hw, weave_snoc.
Qed.

Lemma final_weave j s' :
  final line0 dump j s' ->
  exists seps,
    length seps = length (finish (j, s')) /\ Forall sep_ok seps
    /\ c_string dump = weave (finish (j, s')) seps.
Proof.
  intros F. destruct (final_result line0 dump j s' F)
    as (s & last & R & -> & Hc & Hl & Hj & _).
  destruct (reachable_weave s R) as (seps & Hlen & Hok & Hw).
  destruct (Z.gtb_spec j 0) as [L|L].
  - exists (seps ++ [[]]). split; [rewrite !length_app; cbn; lia|].
    split; [apply Forall_app; split;
            [exact Hok | constructor; [now left | constructor]]|].
    rewrite weave_snoc, Hc, Hw, app_nil_r by exact Hlen. reflexivity.
  - exists seps. rewrite app_nil_r. split; [exact Hlen|]. split; [exact Hok|].
    destruct last; [|cbn in Hl; lia]. now rewrite Hc, app_nil_r.
Qed.

(** *** Runs that find a space at every break *)

Section Spaced.

Hypothesis every_break_at_space :
  forall s, reachable line0 dump s -> no_space_found dump s = false.

Lemma reachable_spaced s :
  reachable line0 dump s ->
  firstn (Z.to_nat (i s)) dump = concat (map (fun l => l ++ [" "]) (str s)).
Proof.
  induction 1 as [|s s' R IH E]; [reflexivity|].
  destruct (iter_consumes dump s s' (wrap_reachable_pos line0 dump s R) E)
    as (l & sp & -> & Hf & _ & _ & _ & _ & Hc).
  rewrite (every_break_at_space s R) in Hc.
  destruct Hc as [(-> & _)|(_ & Hc)]; [|discriminate].
  rewrite Hf, IH, map_app, concat_app. cbn. now rewrite app_nil_r.
Qed.

(** Whatever class of separators has the space and the line break, the
    tokens of the result are those of the input. *)
Lemma final_words_by sep j s' :
  sep " " = true -> sep newline = true ->
  final line0 dump j s' ->
  words_by sep (text_of (finish (j, s'))) = words_by sep (c_string dump).
Proof.
  intros Hsp Hnl F. destruct (final_result line0 dump j s' F)
    as (s & last & R & -> & -> & Hl & Hj & _).
  rewrite (reachable_spaced s R).
  rewrite (words_by_joined sep " ") by exact Hsp.
  destruct (Z.gtb_spec j 0) as [L|L].
  - rewrite text_of_app, text_of_one. unfold text_of at 1.
    rewrite (words_by_joined sep newline) by exact Hnl.
    rewrite (words_by_app_sep sep last newline []) by exact Hnl.
    now rewrite words_by_nil, app_nil_r.
  - destruct last; [|cbn in Hl; lia]. rewrite app_nil_r.
    rewrite <- (app_nil_r (text_of (str s))). unfold text_of.
    now rewrite (words_by_joined sep newline) by exact Hnl.
Qed.

Lemma final_words j s' :
  final line0 dump j s' ->
  words (text_of (finish (j, s'))) = words (c_string dump).
Proof. now apply final_words_by. Qed.

End Spaced.

End WOutput.


(** *** Breaks inside a token *)

Section HardSplit.

Variable line0 : buffer.
Variable dump : list ascii.

(** A pass that finds no space emits the full buffer, and the [LINELEN]
    characters after its first one, the break among them, are of one
    token. *)
Lemma no_space_pass s :
  reachable line0 dump s -> no_space_found dump s = true ->
  exists s',
    iter dump s = Continue s'
    /\ str s' = str s ++ [slice dump (i s) (Z.to_nat LINELEN)]
    /\ i s' = i s + LINELEN
    /\ forall x, 1 <= x <= LINELEN ->
                 dump_at dump (i s + x) <> " "
                 /\ dump_at dump (i s + x) <> NUL.
Proof.
  intros R Hn. pose proof (iter_spec dump s) as H.
  destruct (iter dump s) as [s'|j s'].
  - destruct H as (len & sep & Hlen & Hs & Hi & Hne & Hc).
    destruct Hc as [(_ & _ & Hc)|(-> & -> & _ & Hx)]; [congruence|].
    exists s'. split; [reflexivity|]. split; [exact Hs|]. split; [lia|].
    intros x Hx'. split; [now apply Hx | apply Hne; lia].
  - destruct H as (_ & _ & _ & _ & _ & _ & Hc). congruence.
Qed.

(** Any other pass that appends a line consumes a space at its break. *)
Lemma space_pass s s' :
  reachable line0 dump s -> iter dump s = Continue s' ->
  no_space_found dump s = false ->
  dump_at dump (i s' - 1) = " "
  /\ exists len,
       1 <= len <= LINELEN
       /\ str s' = str s ++ [slice dump (i s) (Z.to_nat len)]
       /\ i s' = i s + len + 1.
Proof.
  intros R E Hn. pose proof (iter_spec dump s) as H. rewrite E in H.
  destruct H as (len & sep & Hlen & Hs & Hi & Hne & Hc).
  destruct Hc as [(-> & Hsp & _)|(_ & _ & Hc & _)]; [|congruence].
  split.
  - rewrite Hi. replace (i s + len + 1 - 1) with (i s + len) by lia.
    exact Hsp.
  - exists len. auto.
Qed.

Lemma no_space_long_token s :
  reachable line0 dump s -> no_space_found dump s = true ->
  exists t, In t (tokens (c_string dump))
            /\ LINELEN <= Z.of_nat (length t).
Proof.
  intros R Hn. destruct (no_space_pass s R Hn) as (s' & E & _ & Hi & Hx).
  pose proof (wrap_reachable_pos line0 dump s R) as [H0 Hp].
  pose proof (iter_spec dump s) as H. rewrite E in H.
  destruct H as (len & sep & _ & _ & _ & Hne & _).
  assert (HL : LINELEN = 78) by reflexivity.
  destruct (c_string_prefix dump (Z.to_nat (i s + 1 + Z.of_nat 78)))
    as (post & Ec).
  { intros k Hk. destruct (Z_lt_le_dec (Z.of_nat k) (i s)) as [L|L].
    - pose proof (Hp (Z.of_nat k)) as X. unfold dump_at in X.
      rewrite Nat2Z.id in X. apply X. lia.
    - pose proof (Hne (Z.of_nat k - i s)) as X. unfold dump_at in X.
      replace (Z.to_nat (i s + (Z.of_nat k - i s))) with k in X by lia.
      apply X. lia. }
  rewrite firstn_slice in Ec
    by (try lia; intros x Hx';
        replace (i s + 1 + x) with (i s + (x + 1)) by lia; apply Hne; lia).
  rewrite <- app_assoc in Ec.
  destruct (split_on_run is_space (firstn (Z.to_nat (i s + 1)) dump)
              (slice dump (i s + 1) 78) post) as (t & Hin & Hl).
  { apply Forall_forall. intros c Hc. apply slice_In in Hc as (k & Hk & <-).
    unfold is_space. replace (i s + 1 + k) with (i s + (k + 1)) by lia.
    destruct (Ascii.eqb_spec (dump_at dump (i s + (k + 1))) " ") as [E1|_];
      [|reflexivity].
    elim (proj1 (Hx (k + 1) ltac:(lia))). exact E1. }
  rewrite slice_length in Hl. rewrite <- Ec in Hin.
  exists t. split; [|lia]. unfold tokens, words_by.
  apply filter_In. split; [exact Hin|].
  destruct t; [cbn in Hl; lia | reflexivity].
Qed.

(** A token longer than the line makes some pass find no space. *)
Lemma long_token_no_space t :
  In t (tokens (c_string dump)) -> LINELEN < Z.of_nat (length t) ->
  exists s, reachable line0 dump s /\ no_space_found dump s = true.
Proof.
  intros Hin Hlen. assert (HL : LINELEN = 78) by reflexivity.
  unfold tokens, words_by in Hin. apply filter_In in Hin as [Hin _].
  apply split_on_In in Hin as (Hf & pre & post & Ec).
  set (p := Z.of_nat (length pre)).
  (* the characters of the token, in the input *)
  assert (Ht : forall x, 0 <= x < Z.of_nat (length t) ->
                         dump_at dump (p + x) <> " "
                         /\ dump_at dump (p + x) <> NUL).
  { intros x Hx. unfold dump_at.
    destruct (c_string_nth dump (Z.to_nat (p + x))) as [E1 E2].
    { rewrite Ec, !length_app. lia. }
    split; [|exact E2]. rewrite E1, Ec.
    rewrite app_nth2 by lia. rewrite app_nth1 by lia.
    replace (Z.to_nat (p + x) - length pre)%nat with (Z.to_nat x) by lia.
    intros E. rewrite Forall_forall in Hf.
    specialize (Hf (nth (Z.to_nat x) t NUL)).
    rewrite E in Hf. unfold is_space in Hf. cbn in Hf.
    enough (true = false) by discriminate. apply Hf.
    rewrite <- E. apply nth_In. lia. }
  assert (Hb : forall k, 0 <= k < p -> dump_at dump k <> NUL).
  { intros k Hk. unfold dump_at.
    apply (c_string_nth dump (Z.to_nat k)). rewrite Ec, !length_app. lia. }
  (* the passes up to the token *)
  assert (G : forall n s, reachable line0 dump s -> i s <= p ->
                          p - i s < Z.of_nat n ->
                          exists s', reachable line0 dump s'
                                     /\ no_space_found dump s' = true).
  { induction n as [|n IH]; intros s R Hi Hn; [lia|].
    pose proof (wrap_reachable_pos line0 dump s R) as [H0 Hp].
    pose proof (iter_spec dump s) as H.
    destruct (iter dump s) as [s'|j s'] eqn:E.
    - destruct H as (len & sep & Hl & Hs & Hi' & Hne & Hc).
      destruct Hc as [(-> & Hsp & _)|(_ & _ & Hc & _)];
        [|exists s; split; assumption].
      destruct (Z_lt_le_dec (i s + len) p) as [L|L].
      + apply (IH s'); [eapply reach_iter; eassumption | lia | lia].
      + elim (proj1 (Ht (i s + len - p) ltac:(lia))).
        replace (p + (i s + len - p)) with (i s + len) by lia. exact Hsp.
    - destruct H as (Hj & _ & _ & Hnul & _).
      destruct (Z_lt_le_dec (i s + j) p) as [L|L].
      + elim (Hb (i s + j)); [lia | exact Hnul].
      + elim (proj2 (Ht (i s + j - p) ltac:(lia))).
        replace (p + (i s + j - p)) with (i s + j) by lia. exact Hnul. }
  apply (G (S (Z.to_nat p)) (init line0)); [constructor | cbn; lia | cbn; lia].
Qed.

End HardSplit.

End WrapFacts.

(** * The claims *)

(** ** The results and two kinds of step *)

Section Claims.

Variable line0 : buffer.
Variable dump : list ascii.

Lemma pretty_result :
  exists s', Pretty.pretty_format_node_dump line0 dump = Some (Pretty.finish s')
             /\ PrettyView.final line0 dump s'.
Proof.
  destruct (PrettyFacts.run_final line0 dump) as (s' & E & F).
  exists s'. unfold Pretty.pretty_format_node_dump. now rewrite E.
Qed.

Lemma wrap_result :
  exists j s', Wrap.format_node_dump line0 dump = Some (Wrap.finish (j, s'))
               /\ WrapView.final line0 dump j s'.
Proof.
  destruct (WrapFacts.wrap_run_final line0 dump) as (j & s' & E & F).
  exists j, s'. unfold Wrap.format_node_dump. now rewrite E.
Qed.

Lemma pretty_width_flush s :
  PrettyView.inv s -> Pretty.j s = Pretty.LINELEN ->
  dump_at dump (Pretty.i s) <> NUL ->
  exists s',
    Pretty.step dump s = Pretty.Continue s'
    /\ Pretty.str s' = Pretty.str s ++ [prefix (Pretty.line s) Pretty.LINELEN]
    /\ Pretty.i s' = Pretty.i s
    /\ Pretty.j s' = Pretty.indentDist s.
Proof.
  intros Hi Hj Hne. pose proof (PrettyFacts.step_view dump s Hi) as H.
  assert (V : PrettyView.vstep dump (PrettyView.view_of s)
              = PrettyView.VContinue
                  (PrettyView.mkView (Pretty.i s)
                     (PrettyView.spaces
                        (PrettyView.dist_of (Pretty.indentLev s)))
                     (Pretty.indentLev s)
                     (Pretty.str s ++ [prefix (Pretty.line s) (Pretty.j s)]))).
  { unfold PrettyView.vstep. rewrite (PrettyFacts.view_j s Hi), Hj.
    cbn [PrettyView.view_of PrettyView.v_i PrettyView.v_cur
           PrettyView.v_lev PrettyView.v_str].
    rewrite Z.ltb_irrefl. cbn [andb].
    destruct (Ascii.eqb_spec (dump_at dump (Pretty.i s)) NUL); [contradiction|].
    rewrite ?Hj. reflexivity. }
  destruct (Pretty.step dump s) as [s'|s']; destruct H as [H Hi'];
    [|rewrite V in H; discriminate].
  exists s'. split; [reflexivity|].
  pose proof (PrettyFacts.view_j s' Hi') as J'.
  rewrite V in H. injection H as Ei Ec _ Es.
  unfold PrettyView.v_j in J'.
  cbn [PrettyView.view_of PrettyView.v_cur] in J'. rewrite <- Ec in J'.
  rewrite PrettyFacts.spaces_length in J'
    by (apply PrettyFacts.dist_of_range, (PrettyView.inv_lev s Hi)).
  rewrite <- Es, <- Ei, Hj, (PrettyView.inv_dist s Hi). auto.
Qed.

Lemma pretty_body_step s :
  PrettyView.inv s -> Pretty.inner_test dump s = true ->
  exists s',
    Pretty.step dump s = Pretty.Continue s' /\ PrettyView.inv s'
    /\ Pretty.i s < Pretty.i s'.
Proof.
  intros Hi Ht. pose proof (PrettyFacts.step_view dump s Hi) as H.
  assert (E : exists s', Pretty.step dump s = Pretty.Continue s').
  { unfold Pretty.step. rewrite Ht. eauto. }
  destruct E as (s' & E). rewrite E in H. destruct H as [H Hi'].
  exists s'. split; [exact E|]. split; [exact Hi'|].
  apply PrettyFacts.vstep_cursor in H.
  rewrite (PrettyFacts.view_j s Hi) in H. cbn in H.
  unfold Pretty.inner_test in Ht. apply andb_prop in Ht as [Hlt _].
  apply Z.ltb_lt in Hlt.
  destruct H as [(_ & Hge & _)|(_ & _ & [-> | ->])]; [lia | lia |].
  pose proof
    (proj1 (PrettyFacts.skip_idx_spec dump (length dump) (Pretty.i s))).
  lia.
Qed.

End Claims.

Lemma slice_nth dump a n k :
  (k < n)%nat -> nth k (slice dump a n) NUL = dump_at dump (a + Z.of_nat k).
Proof.
  intros H. unfold slice.
  rewrite (nth_indep _ NUL (dump_at dump (a + Z.of_nat 0)))
    by (now rewrite length_map, length_seq).
  rewrite (map_nth (fun k => dump_at dump (a + Z.of_nat k))).
  now rewrite seq_nth.
Qed.

Lemma steps_reachable line0 dump n : forall s s',
  Pretty.reachable line0 dump s -> Pretty.steps n dump s = Some s' ->
  Pretty.reachable line0 dump s'.
Proof.
  induction n as [|n IH]; intros s s' R E; cbn [Pretty.steps] in E.
  - now injection E as <-.
  - destruct (Pretty.step dump s) as [s1|s1] eqn:E1; [|discriminate].
    apply (IH s1); [eapply Pretty.reach_step; eassumption | exact E].
Qed.

(** ** The line a close-group ends up in *)

Module PrettyLines.
Import Pretty PrettyView PrettyFacts.

Section NextLine.

Variable line0 : buffer.
Variable dump : list ascii.

(** Once the line being built holds more than its indentation, the next
    line appended starts with it: a flush prints it as it is, and a
    character stored goes behind it. *)
Lemma next_line_extends (n : nat) : forall s,
  reachable line0 dump s ->
  measure dump s < Z.of_nat n ->
  indentDist s < j s ->
  exists l more,
    pretty_format_node_dump line0 dump
    = Some (str s ++ [prefix (line s) (j s) ++ l] ++ more).
Proof.
  induction n as [|n IH]; intros s R Hm Hj.
  - pose proof (measure_nonneg dump s (reachable_pos line0 dump s R)). lia.
  - pose proof (reachable_inv line0 dump s R) as Hi.
    pose proof (step_view dump s Hi) as H.
    pose proof (view_j s Hi) as Hvj.
    pose proof (inv_dist s Hi) as Hd.
    pose proof (inv_j s Hi) as Hjr.
    pose proof (dist_of_range _ (inv_lev s Hi)) as Hdr.
    destruct (step dump s) as [s1|s1] eqn:E.
    + destruct H as [H Hi1].
      assert (R1 : reachable line0 dump s1)
        by (eapply reach_step; eassumption).
      pose proof (step_measure dump s s1 Hi (reachable_pos line0 dump s R) E)
        as Hm1.
      destruct (reachable_output_prefix line0 dump s1 R1) as (more1 & Em).
      pose proof (view_j s1 Hi1) as Hvj1.
      pose proof (inv_dist s1 Hi1) as Hd1.
      remember (view_of s1) as v1 eqn:Ev1.
      assert (S1 : v_str v1 = str s1) by (subst v1; reflexivity).
      assert (C1 : v_cur v1 = prefix (line s1) (j s1))
        by (subst v1; reflexivity).
      assert (L1 : v_lev v1 = indentLev s1) by (subst v1; reflexivity).
      clear Ev1.
      assert (Hcont : v_str v1 = str s ->
                      (exists c, v_cur v1 = prefix (line s) (j s) ++ [c]) ->
                      v_lev v1 = indentLev s ->
                      exists l more,
                        pretty_format_node_dump line0 dump
                        = Some (str s ++ [prefix (line s) (j s) ++ l] ++ more)).
      { intros Hs (c & Hc) Hl.
        destruct (IH s1 R1) as (l & more & Er); [lia | |].
        - rewrite <- Hvj1. unfold v_j. rewrite Hc, length_app.
          cbn [length]. rewrite Nat2Z.inj_add, prefix_length by lia.
          rewrite Hd1, <- L1, Hl, <- Hd. lia.
        - exists (c :: l), more. rewrite Er, <- S1, Hs, <- C1, Hc.
          now rewrite <- app_assoc. }
      unfold vstep, flushed in H. rewrite Hvj in H.
      cbn [view_of v_i v_cur v_lev v_str] in H. rewrite <- Hd in H.
      destruct (Z.eqb_spec (j s) (indentDist s)) as [Q|_]; [lia|].
      repeat match type of H with
             | context [Z.ltb ?a ?b] => destruct (Z.ltb_spec a b)
             | context [Z.gtb ?a ?b] => destruct (Z.gtb_spec a b)
             | context [Ascii.eqb ?a ?b] => destruct (Ascii.eqb_spec a b)
             end;
        cbn [andb negb] in H; try discriminate H;
        injection H as H; subst v1; cbn [v_str v_cur v_lev] in *.
      all: try (apply Hcont; [reflexivity | eexists; reflexivity
                              | reflexivity]).
      all: rewrite Em, <- S1.
      all: try (exists [], more1; rewrite app_nil_r, <- !app_assoc;
                reflexivity).
      all: try (eexists [], (_ :: more1); rewrite app_nil_r, <- !app_assoc;
                reflexivity).
      all: try (exists [")"], more1; rewrite <- !app_assoc; reflexivity).
    + destruct H as (H & Hi1 & Hn).
      rewrite (result_from_break line0 dump s s1 R E), (finish_view s1 Hi1 Hn).
      assert (Ev : view_of s = view_of s1).
      { revert H. unfold vstep.
        destruct ((v_j (view_of s) <? LINELEN)
                  && negb (Ascii.eqb (dump_at dump (v_i (view_of s))) NUL)).
        - repeat match goal with
                 | |- context [Ascii.eqb ?a ?b] => destruct (Ascii.eqb a b)
                 end; discriminate.
        - destruct (Ascii.eqb (dump_at dump (v_i (view_of s))) NUL);
            [congruence | discriminate]. }
      rewrite <- Ev. unfold vfinish. rewrite Hvj.
      destruct (Z.gtb_spec (j s) 0) as [_|Q]; [|lia].
      exists [], []. cbn [view_of v_str v_cur]. now rewrite !app_nil_r.
Qed.

(** The inner body meets every character of the input that is not a
    space: only [while (dump[i + 1] == ' ') i++] moves the cursor past a
    character, and only past spaces. *)
Lemma body_meets (n : nat) : forall s p,
  reachable line0 dump s ->
  measure dump s < Z.of_nat n ->
  i s <= p ->
  (forall k, 0 <= k <= p -> dump_at dump k <> NUL) ->
  dump_at dump p <> " " ->
  exists s', reachable line0 dump s' /\ i s' = p
             /\ inner_test dump s' = true.
Proof.
  induction n as [|n IH]; intros s p R Hm Hp Hne Hsp.
  - pose proof (measure_nonneg dump s (reachable_pos line0 dump s R)). lia.
  - pose proof (reachable_inv line0 dump s R) as Hi.
    pose proof (reachable_pos line0 dump s R) as Hpos.
    destruct (inner_test dump s) eqn:T.
    + destruct (Z.eq_dec (i s) p) as [Q|Q]; [exists s; auto|].
      destruct (pretty_body_step dump s Hi T) as (s1 & E & Hi1 & Hlt).
      pose proof (step_view dump s Hi) as H. rewrite E in H.
      destruct H as [H _].
      apply vstep_cursor in H. cbn [view_of v_i] in H.
      apply (IH s1); auto.
      * eapply reach_step; eassumption.
      * pose proof (step_measure dump s s1 Hi Hpos E). lia.
      * destruct H as [(H & _)|(_ & _ & [H|H])]; [lia | lia |].
        destruct (Z_lt_le_dec (skip_idx (length dump) dump (i s)) p);
          [lia|].
        elim Hsp. apply (proj2 (skip_idx_spec dump (length dump) (i s))).
        lia.
    + unfold inner_test in T.
      assert (Hn : dump_at dump (i s) <> NUL)
        by (apply Hne; destruct Hpos; lia).
      destruct (Ascii.eqb_spec (dump_at dump (i s)) NUL) as [Q|_];
        [contradiction|].
      rewrite andb_true_r in T. apply Z.ltb_ge in T.
      pose proof (inv_j s Hi) as Hj.
      destruct (pretty_width_flush dump s Hi) as (s1 & E & _ & Ei & _);
        [lia | exact Hn |].
      apply (IH s1); auto.
      * eapply reach_step; eassumption.
      * pose proof (step_measure dump s s1 Hi Hpos E). lia.
      * lia.
Qed.

End NextLine.

Section Pair.

Variable line0 : buffer.
Variable dump : list ascii.

Lemma inner_test_width s : inner_test dump s = true -> j s < LINELEN.
Proof.
  unfold inner_test. intros H. apply andb_prop in H as [H _].
  now apply Z.ltb_lt.
Qed.

(** A close-group followed by another character (or by the end of the
    input) closes its line, and the next line starts at the indentation. *)
Lemma close_group_ends_line s :
  reachable line0 dump s -> inner_test dump s = true ->
  dump_at dump (i s) = ")" -> dump_at dump (i s + 1) <> ")" ->
  exists s' more,
    step dump s = Continue s'
    /\ str s' = str s ++ [prefix (line s) (j s) ++ [")"]]
    /\ j s' = indentDist s'
    /\ prefix (line s') (j s') = spaces (indentDist s')
    /\ indentLev s' = indentLev s
    /\ pretty_format_node_dump line0 dump
       = Some (str s ++ [prefix (line s) (j s) ++ [")"]] ++ more).
Proof.
  intros R T Ec En. pose proof (reachable_inv line0 dump s R) as Hi.
  destruct (step_close_group dump s Hi (inner_test_width s T) Ec)
    as (s' & E & Hi' & V).
  destruct (Ascii.eqb_spec (dump_at dump (i s + 1)) ")") as [Q|_];
    [contradiction|].
  assert (R' : reachable line0 dump s') by (eapply reach_step; eassumption).
  destruct (reachable_output_prefix line0 dump s' R') as (more & Em).
  pose proof (view_j s' Hi') as J. unfold v_j in J. rewrite V in J.
  cbn [v_cur] in J. rewrite spaces_length in J
    by (rewrite (inv_dist s Hi); apply dist_of_range, (inv_lev s Hi)).
  injection V as _ C L S.
  assert (D : indentDist s' = indentDist s)
    by (rewrite (inv_dist s' Hi'), L, <- (inv_dist s Hi); reflexivity).
  exists s', more. split; [exact E|]. split; [exact S|].
  split; [lia|]. split; [now rewrite D|]. split; [exact L|].
  now rewrite Em, S, <- app_assoc.
Qed.

(** Two close-groups in a row: the first stays in the line being built;
    the second goes behind it in the same line of the output when the
    line has room for it, and otherwise the line is cut at the width
    bound between the two. *)
Lemma close_group_pair s :
  reachable line0 dump s -> inner_test dump s = true ->
  dump_at dump (i s) = ")" -> dump_at dump (i s + 1) = ")" ->
  exists s1,
    step dump s = Continue s1
    /\ str s1 = str s /\ i s1 = i s + 1 /\ j s1 = j s + 1
    /\ prefix (line s1) (j s1) = prefix (line s) (j s) ++ [")"]
    /\ (j s + 1 < LINELEN ->
        exists l more,
          pretty_format_node_dump line0 dump
          = Some (str s ++ [prefix (line s) (j s) ++ [")"; ")"] ++ l]
                        ++ more))
    /\ (j s + 1 = LINELEN ->
        exists s2,
          step dump s1 = Continue s2
          /\ str s2 = str s ++ [prefix (line s) (j s) ++ [")"]]
          /\ i s2 = i s + 1 /\ j s2 = indentDist s2).
Proof.
  intros R T Ec En. pose proof (reachable_inv line0 dump s R) as Hi.
  pose proof (inner_test_width s T) as Lj.
  destruct (step_close_group dump s Hi Lj Ec) as (s1 & E & Hi1 & V).
  rewrite En in V. change (Ascii.eqb ")" ")") with true in V. cbn iota in V.
  assert (R1 : reachable line0 dump s1) by (eapply reach_step; eassumption).
  pose proof (inv_j s Hi) as Hj.
  pose proof (dist_of_range _ (inv_lev s Hi)) as Hd.
  rewrite <- (inv_dist s Hi) in Hd.
  pose proof (view_j s1 Hi1) as J1. unfold v_j in J1. rewrite V in J1.
  cbn [v_cur] in J1. rewrite length_app, Nat2Z.inj_add, prefix_length in J1
    by lia.
  cbn [length] in J1.
  injection V as I1 C1 L1 S1.
  assert (D1 : indentDist s1 = indentDist s)
    by (rewrite (inv_dist s1 Hi1), L1, <- (inv_dist s Hi); reflexivity).
  exists s1. split; [exact E|]. split; [exact S1|]. split; [exact I1|].
  split; [lia|]. split; [exact C1|]. split.
  - (* room for the second close-group *)
    intros Hroom.
    assert (Ec1 : dump_at dump (i s1) = ")") by now rewrite I1.
    destruct (step_close_group dump s1 Hi1) as (s2 & E2 & Hi2 & V2);
      [lia | exact Ec1 |].
    assert (R2 : reachable line0 dump s2)
      by (eapply reach_step; eassumption).
    destruct (Ascii.eqb (dump_at dump (i s1 + 1)) ")").
    + pose proof (view_j s2 Hi2) as J2. unfold v_j in J2. rewrite V2 in J2.
      cbn [v_cur] in J2.
      rewrite length_app, Nat2Z.inj_add, prefix_length in J2 by lia.
      cbn [length] in J2.
      injection V2 as _ C2 L2 S2.
      destruct (next_line_extends line0 dump
                  (S (Z.to_nat (measure dump s2))) s2 R2)
        as (l & more & Er).
      * pose proof (measure_nonneg dump s2 (reachable_pos line0 dump s2 R2)).
        lia.
      * rewrite (inv_dist s2 Hi2), L2, <- (inv_dist s1 Hi1). lia.
      * exists l, more. rewrite Er, S2, S1, C2, C1, <- !app_assoc.
        reflexivity.
    + injection V2 as _ _ _ S2.
      destruct (reachable_output_prefix line0 dump s2 R2) as (more & Em).
      exists [], more. rewrite Em, S2, S1, C1, app_nil_r, <- !app_assoc.
      reflexivity.
  - (* the line is full: it is cut between the two *)
    intros Hfull.
    destruct (pretty_width_flush dump s1 Hi1) as (s2 & E2 & S2 & I2 & J2);
      [lia | rewrite I1, En; discriminate |].
    exists s2. split; [exact E2|]. split.
    + rewrite S2, S1. f_equal. f_equal. rewrite <- C1. f_equal. lia.
    + split; [lia|].
      pose proof (step_view dump s1 Hi1) as H. rewrite E2 in H.
      destruct H as [_ Hi2'].
      pose proof (inv_j s2 Hi2') as Hj2.
      assert (L2 : indentDist s2 = indentDist s1).
      { pose proof (step_view dump s1 Hi1) as H. rewrite E2 in H.
        destruct H as [H _]. unfold vstep in H.
        rewrite (view_j s1 Hi1) in H.
        destruct (Z.ltb_spec (j s1) LINELEN) as [Q|_]; [lia|].
        cbn [andb] in H. cbn [view_of v_i] in H.
        destruct (Ascii.eqb (dump_at dump (i s1)) NUL); [discriminate|].
        injection H as _ _ L2 _.
        now rewrite (inv_dist s2 Hi2'), <- L2, <- (inv_dist s1 Hi1). }
      lia.
Qed.

End Pair.

End PrettyLines.

(** ** Scenario C *)

(** C1, amended: on ["{A :B 1 {C :D 2}}"] the function returns
    exactly six lines, ["   {A "], ["   :B 1 "], ["      {C "],
    ["      :D 2"], ["      }"] and ["   }"]: three columns of indentation
    per level, each [':'], ['{'] and ['}'] at the start of a line, the
    character after ['{'] right behind it, and the space before a break
    kept at the end of its line. *)
Theorem C1_scenario_C_lines (line0 : buffer) :
  Pretty.pretty_format_node_dump line0 scenario_C = Some scenario_C_lines.
Proof. vm_compute. reflexivity. Qed.

(** C1, as stated, fails: the lines the specification lists have a space
    between ['{'] and the name after it, which the input does not have;
    the lines returned differ from them even with the spaces at the end
    of each line left out. *)
Lemma C1_scenario_C_counterexample :
  option_map (map strip_trailing)
             (Pretty.pretty_format_node_dump stale scenario_C)
  <> Some scenario_C_spec_lines.
Proof. vm_compute. discriminate. Qed.

(** ** The width bound *)

(** C2. Every line appended by [format_node_dump] and by
    [pretty_format_node_dump] has at most 78 characters, in the result and
    at every point of the run; in the pretty printer the fill position [j]
    and the line being built never pass 78, and at [j = 78] with input
    left the line is appended as it is, whatever the next character. *)
Theorem C2_line_width (line0 : buffer) (dump : list ascii) :
  (exists out,
      Wrap.format_node_dump line0 dump = Some out
      /\ Forall (fun l => (length l <= 78)%nat) out)
  /\ (exists out,
         Pretty.pretty_format_node_dump line0 dump = Some out
         /\ Forall (fun l => (length l <= 78)%nat) out)
  /\ (forall s, Wrap.reachable line0 dump s ->
                Forall (fun l => (length l <= 78)%nat) (Wrap.str s))
  /\ (forall s, Pretty.reachable line0 dump s ->
                0 <= Pretty.j s <= 78
                /\ (length (prefix (Pretty.line s) (Pretty.j s)) <= 78)%nat
                /\ Forall (fun l => (length l <= 78)%nat) (Pretty.str s)
                /\ (Pretty.j s = 78 -> dump_at dump (Pretty.i s) <> NUL ->
                    exists s',
                      Pretty.step dump s = Pretty.Continue s'
                      /\ Pretty.str s'
                         = Pretty.str s ++ [prefix (Pretty.line s) 78]
                      /\ Pretty.i s' = Pretty.i s)).
Proof.
  assert (W : forall ls, Forall WrapView.wline_ok ls ->
                         Forall (fun l => (length l <= 78)%nat) ls).
  { intros ls H. eapply Forall_impl; [|exact H]. cbn beta.
    unfold WrapView.wline_ok, Wrap.LINELEN. intros l [Hl _]. lia. }
  assert (P : forall ls, Forall PrettyView.line_ok ls ->
                         Forall (fun l => (length l <= 78)%nat) ls).
  { intros ls H. eapply Forall_impl; [|exact H]. cbn beta.
    unfold PrettyView.line_ok, Pretty.LINELEN. intros l [Hl _]. lia. }
  split; [|split; [|split]].
  - destruct (wrap_result line0 dump) as (j & s' & E & F).
    exists (Wrap.finish (j, s')). split; [exact E|].
    apply W, (WrapFacts.final_wlines line0 dump j s' F).
  - destruct (pretty_result line0 dump) as (s' & E & F).
    exists (Pretty.finish s'). split; [exact E|].
    apply P, (PrettyFacts.final_lines_ok line0 dump s' F).
  - intros s R. apply W, (WrapFacts.reachable_wlines line0 dump s R).
  - intros s R. pose proof (PrettyFacts.reachable_inv line0 dump s R) as Hi.
    pose proof (PrettyView.inv_j s Hi) as Hj.
    pose proof (PrettyFacts.dist_of_range _ (PrettyView.inv_lev s Hi)) as Hd.
    rewrite <- (PrettyView.inv_dist s Hi) in Hd.
    unfold Pretty.LINELEN in Hj.
    split; [lia|]. split.
    + pose proof (prefix_length (Pretty.line s) (Pretty.j s)). lia.
    + split; [apply P, (PrettyFacts.reachable_lines_ok line0 dump s R)|].
      intros E Hne.
      destruct (pretty_width_flush dump s Hi E Hne) as (s' & E1 & E2 & E3 & _).
      exists s'. auto.
Qed.

(** C2 at work: after 78 steps on a token of 79 characters the line is
    full, and the next step appends it before the 79th character is read. *)
Lemma C2_line_width_witness :
  exists s s',
    Pretty.steps 78 token_over_width (Pretty.init stale) = Some s
    /\ Pretty.j s = 78
    /\ Pretty.step token_over_width s = Pretty.Continue s'
    /\ Pretty.str s' = Pretty.str s ++ [prefix (Pretty.line s) 78]
    /\ Pretty.i s' = Pretty.i s.
Proof.
  destruct (Pretty.steps 78 token_over_width (Pretty.init stale))
    as [s|] eqn:E; [|vm_compute in E; discriminate].
  assert (R : Pretty.reachable stale token_over_width s)
    by (eapply steps_reachable; [constructor | exact E]).
  assert (Hj : Pretty.j s = 78)
    by (vm_compute in E; injection E as <-; reflexivity).
  assert (Hn : dump_at token_over_width (Pretty.i s) <> NUL)
    by (vm_compute in E; injection E as <-; vm_compute; discriminate).
  destruct (C2_line_width stale token_over_width) as (_ & _ & _ & H).
  destruct (H s R) as (_ & _ & _ & F).
  destruct (F Hj Hn) as (s' & E1 & E2 & E3).
  exists s, s'. auto.
Defined.

(** ** The indentation *)

(** C3. At every test of the inner loop, in the run on any input,
    [indentLev] is not negative and [indentDist] is
    [min(indentLev * 3, 60)]; and a close-block met at [indentLev = 0]
    still gets its line, ["}"] at column 0 (after the data before it, if
    any), a line of the result, and leaves [indentLev], [indentDist] and
    the fill position at 0. *)
Theorem C3_indent_never_negative (line0 : buffer) (dump : list ascii)
    (s : Pretty.state) :
  Pretty.reachable line0 dump s ->
  0 <= Pretty.indentLev s
  /\ Pretty.indentDist s = Z.min (Pretty.indentLev s * 3) 60
  /\ (Pretty.inner_test dump s = true ->
      dump_at dump (Pretty.i s) = "}" ->
      Pretty.indentLev s = 0 ->
      exists s',
        Pretty.step dump s = Pretty.Continue s'
        /\ Pretty.str s'
           = Pretty.str s
             ++ (if Pretty.j s =? 0 then []
                 else [prefix (Pretty.line s) (Pretty.j s)])
             ++ [["}"]]
        /\ Pretty.indentLev s' = 0 /\ Pretty.indentDist s' = 0
        /\ Pretty.j s' = 0
        /\ exists more,
             Pretty.pretty_format_node_dump line0 dump
             = Some (Pretty.str s' ++ more)).
Proof.
  intros R. pose proof (PrettyFacts.reachable_inv line0 dump s R) as Hi.
  split; [apply (PrettyView.inv_lev s Hi)|].
  split; [apply (PrettyView.inv_dist s Hi)|].
  intros Ht Ec El.
  destruct (pretty_body_step dump s Hi Ht) as (s' & E & Hi' & _).
  exists s'. split; [exact E|].
  pose proof (PrettyFacts.step_view dump s Hi) as H. rewrite E in H.
  destruct H as [H _].
  unfold PrettyView.vstep, PrettyView.flushed in H.
  rewrite (PrettyFacts.view_j s Hi) in H.
  cbn [PrettyView.view_of PrettyView.v_i PrettyView.v_cur
         PrettyView.v_lev PrettyView.v_str] in H.
  unfold Pretty.inner_test in Ht. rewrite Ht, Ec, El in H.
  change (Ascii.eqb "}" "}") with true in H.
  change (0 >? 0) with false in H.
  change (PrettyView.dist_of 0) with 0 in H.
  change (PrettyView.spaces 0) with (@nil ascii) in H.
  injection H as _ Ecur Elev Estr.
  pose proof (PrettyFacts.view_j s' Hi') as J'. unfold PrettyView.v_j in J'.
  cbn [PrettyView.view_of PrettyView.v_cur] in J'. rewrite <- Ecur in J'.
  split; [|split; [now symmetry | split; [|split; [now symmetry|]]]].
  - rewrite <- Estr. destruct (Pretty.j s =? 0);
      [reflexivity | now rewrite <- app_assoc].
  - rewrite (PrettyView.inv_dist s' Hi'), <- Elev. reflexivity.
  - apply (PrettyFacts.reachable_output_prefix line0 dump s').
    eapply Pretty.reach_step; eassumption.
Qed.

(** C3 at work: ["}"] alone, met at the top level, is given its line. *)
Lemma C3_indent_never_negative_witness :
  Pretty.reachable stale (chars "}") (Pretty.init stale)
  /\ exists s',
       Pretty.step (chars "}") (Pretty.init stale) = Pretty.Continue s'
       /\ Pretty.str s' = [["}"]]
       /\ Pretty.indentLev s' = 0 /\ Pretty.indentDist s' = 0
       /\ Pretty.j s' = 0.
Proof.
  split; [constructor|].
  destruct (C3_indent_never_negative stale (chars "}") (Pretty.init stale))
    as (_ & _ & H); [constructor|].
  destruct H as (s' & E & Es & El & Ed & Ej & _); [reflexivity .. |].
  exists s'. split; [exact E|]. split; [exact Es | auto].
Defined.

(** ** Empty and blank lines *)

(** C9, amended. No line appended by [pretty_format_node_dump] is
    empty, in the result and at every point of the run: the fill position
    [j] is never left of [indentDist]; a line appended inside the scan is
    the line being built with [j <> indentDist] or at the width bound
    [j = 78], or it ends with the [")"] or ["}"] that closed it; and the
    line appended after the loop is the line being built with [j > 0].
    When the input has no line break of its own, the lines of the returned
    text, read between its line breaks, are the lines appended, so each
    has a character before its line break. *)
Theorem C9_no_empty_line (line0 : buffer) (dump : list ascii) :
  (exists out,
      Pretty.pretty_format_node_dump line0 dump = Some out
      /\ Forall (fun l => l <> []) out
      /\ (~ In newline (c_string dump) ->
          split_on (fun c => Ascii.eqb c newline) (text_of out)
          = out ++ [[]]
          /\ lines_of_text (text_of out) = out
          /\ Forall (fun l => l <> []) (lines_of_text (text_of out))))
  /\ (forall s, Pretty.reachable line0 dump s ->
                0 <= Pretty.indentDist s <= Pretty.j s
                /\ Forall (fun l => l <> []) (Pretty.str s))
  /\ (forall s s',
         Pretty.reachable line0 dump s ->
         Pretty.step dump s = Pretty.Continue s' ->
         exists new,
           Pretty.str s' = Pretty.str s ++ new
           /\ Forall
                (fun l =>
                   (l = prefix (Pretty.line s) (Pretty.j s)
                    /\ (Pretty.j s <> Pretty.indentDist s
                        \/ Pretty.j s = 78))
                   \/ l = prefix (Pretty.line s) (Pretty.j s) ++ [")"]
                   \/ l = repeat " " (Z.to_nat (Pretty.indentDist s))
                            ++ ["}"]) new)
  /\ (forall s s',
         Pretty.reachable line0 dump s ->
         Pretty.step dump s = Pretty.Break s' ->
         Pretty.finish s'
         = Pretty.str s
             ++ (if Pretty.j s >? 0
                 then [prefix (Pretty.line s) (Pretty.j s)] else [])).
Proof.
  assert (P : forall ls, Forall PrettyView.line_ok ls ->
                         Forall (fun l => l <> []) ls).
  { intros ls H. eapply Forall_impl; [|exact H]. cbn beta.
    unfold PrettyView.line_ok. intros l [Hl _] ->. cbn in Hl. lia. }
  split; [|split; [|split]].
  - destruct (pretty_result line0 dump) as (s' & E & F).
    exists (Pretty.finish s'). split; [exact E|].
    assert (Hne : Forall (fun l => l <> []) (Pretty.finish s'))
      by apply P, (PrettyFacts.final_lines_ok line0 dump s' F).
    split; [exact Hne|].
    intros Hnl.
    assert (Hs : split_on (fun c => Ascii.eqb c newline)
                          (text_of (Pretty.finish s'))
                 = Pretty.finish s' ++ [[]]).
    { apply PrettyFacts.split_on_text_of.
      apply (PrettyFacts.final_chars line0 dump
               (fun c => Ascii.eqb c newline = false));
        [reflexivity | | exact F].
      intros c Hc. destruct (Ascii.eqb_spec c newline) as [->|_];
        [contradiction | reflexivity]. }
    assert (Hl : lines_of_text (text_of (Pretty.finish s'))
                 = Pretty.finish s')
      by (unfold lines_of_text; rewrite Hs; apply removelast_last).
    split; [exact Hs|]. split; [exact Hl | now rewrite Hl].
  - intros s R. pose proof (PrettyFacts.reachable_inv line0 dump s R) as Hi.
    pose proof (PrettyFacts.dist_of_range _ (PrettyView.inv_lev s Hi)) as Hd.
    rewrite <- (PrettyView.inv_dist s Hi) in Hd.
    split; [split; [lia | apply (PrettyView.inv_j s Hi)]|].
    apply P, (PrettyFacts.reachable_lines_ok line0 dump s R).
  - intros s s' R E.
    pose proof (PrettyFacts.reachable_inv line0 dump s R) as Hi.
    pose proof (PrettyFacts.step_view dump s Hi) as H. rewrite E in H.
    destruct H as [H _].
    apply PrettyFacts.vstep_new_lines in H as (new & En & Hnew).
    exists new. split; [exact En|].
    eapply Forall_impl; [|exact Hnew]. cbn beta.
    rewrite (PrettyFacts.view_j s Hi).
    cbn [PrettyView.view_of PrettyView.v_cur PrettyView.v_lev
         PrettyView.v_i].
    rewrite <- (PrettyView.inv_dist s Hi).
    pose proof (PrettyView.inv_j s Hi) as Hj.
    change Pretty.LINELEN with 78 in *.
    intros l [(-> & Hc)|[(-> & _)|(-> & _)]]; auto.
    left. split; [reflexivity|]. destruct Hc; [auto | right; lia].
  - intros s s' R E.
    pose proof (PrettyFacts.reachable_inv line0 dump s R) as Hi.
    pose proof (PrettyFacts.step_view dump s Hi) as H. rewrite E in H.
    destruct H as (H & Hi' & Hn).
    rewrite (PrettyFacts.finish_view s' Hi' Hn).
    assert (Ev : PrettyView.view_of s = PrettyView.view_of s').
    { revert H. unfold PrettyView.vstep.
      destruct ((PrettyView.v_j (PrettyView.view_of s) <? Pretty.LINELEN)
                && negb (Ascii.eqb
                           (dump_at dump
                              (PrettyView.v_i (PrettyView.view_of s)))
                           NUL)).
      - repeat match goal with
               | |- context [Ascii.eqb ?a ?b] => destruct (Ascii.eqb a b)
               end; discriminate.
      - destruct (Ascii.eqb
                    (dump_at dump (PrettyView.v_i (PrettyView.view_of s)))
                    NUL);
          [congruence | discriminate]. }
    rewrite <- Ev. unfold PrettyView.vfinish.
    rewrite (PrettyFacts.view_j s Hi). cbn [PrettyView.view_of
      PrettyView.v_str PrettyView.v_cur].
    destruct (Pretty.j s >? 0); [reflexivity | now rewrite app_nil_r].
Qed.

(** C9 at work: the six lines of Scenario C, read back from the text. *)
Lemma C9_no_empty_line_witness :
  ~ In newline (c_string scenario_C)
  /\ Pretty.reachable stale scenario_C (Pretty.init stale)
  /\ lines_of_text (text_of scenario_C_lines) = scenario_C_lines
  /\ Forall (fun l => l <> []) (lines_of_text (text_of scenario_C_lines))
  /\ 0 <= Pretty.indentDist (Pretty.init stale) <= Pretty.j (Pretty.init stale).
Proof.
  assert (N : ~ In newline (c_string scenario_C)).
  { intros Hin. vm_compute in Hin.
    repeat (destruct Hin as [Hin|Hin]; [discriminate Hin|]). exact Hin. }
  split; [exact N|]. split; [constructor|].
  destruct (C9_no_empty_line stale scenario_C)
    as ((out & E & _ & H) & G & _).
  vm_compute in E. injection E as <-.
  destruct (H N) as (_ & H1 & H2).
  split; [exact H1|]. split; [exact H2|].
  apply (G (Pretty.init stale)). constructor.
Defined.

(** C9, as stated, fails: a line break of the input is copied like any
    other character, so the text returned for a block with a line break
    before its ["}"] has an empty line between ["   {a"] and ["   }"]. *)
Lemma C9_no_empty_line_counterexample :
  option_map (fun out => lines_of_text (text_of out))
             (Pretty.pretty_format_node_dump stale block_with_line_break)
  = Some [chars "   {a"; []; chars "   }"]
  /\ ~ (forall dump,
          exists out,
            Pretty.pretty_format_node_dump stale dump = Some out
            /\ Forall (fun l => l <> []) (lines_of_text (text_of out))).
Proof.
  split; [vm_compute; reflexivity|].
  intros H. destruct (H block_with_line_break) as (out & E & F).
  vm_compute in E. injection E as <-.
  vm_compute in F. inversion F as [|? ? _ F1]. inversion F1 as [|? ? Q _].
  now apply Q.
Qed.

(** C10. For some inputs the last line of the result is not empty and
    all spaces: on ["{a)"] the close-group closes the line ["   {a)"]
    at the end of the input, and the indentation of the next line, three
    spaces, passes the final test [j > 0]. In general, when the input
    ends right after a close-group met at [indentDist > 0], the result
    ends with the line closed by it and a line of [indentDist] spaces. *)
Theorem C10_blank_last_line (line0 : buffer) :
  Pretty.pretty_format_node_dump line0 (chars "{a)")
  = Some [chars "   {a)"; chars "   "]
  /\ forall dump s,
       Pretty.reachable line0 dump s ->
       Pretty.inner_test dump s = true ->
       dump_at dump (Pretty.i s) = ")" ->
       dump_at dump (Pretty.i s + 1) = NUL ->
       0 < Pretty.indentDist s ->
       exists last,
         Pretty.pretty_format_node_dump line0 dump
         = Some (Pretty.str s
                   ++ [prefix (Pretty.line s) (Pretty.j s) ++ [")"]; last])
         /\ last = repeat " " (Z.to_nat (Pretty.indentDist s))
         /\ last <> [].
Proof.
  split; [vm_compute; reflexivity|].
  intros dump s R Ht Ec En Hd.
  exists (repeat " " (Z.to_nat (Pretty.indentDist s))).
  split; [|split; [reflexivity|]].
  - rewrite (PrettyFacts.close_group_at_end line0 dump s R Ht Ec En).
    destruct (Z.gtb_spec (Pretty.indentDist s) 0); [reflexivity | lia].
  - destruct (Z.to_nat (Pretty.indentDist s)) eqn:E; [lia | discriminate].
Qed.

(** C10 at work: the state two steps into ["{a)"], at the close-group. *)
Lemma C10_blank_last_line_witness :
  exists s last,
    Pretty.steps 2 (chars "{a)") (Pretty.init stale) = Some s
    /\ Pretty.indentDist s = 3
    /\ Pretty.pretty_format_node_dump stale (chars "{a)")
       = Some (Pretty.str s
                 ++ [prefix (Pretty.line s) (Pretty.j s) ++ [")"]; last])
    /\ last = chars "   ".
Proof.
  destruct (Pretty.steps 2 (chars "{a)") (Pretty.init stale)) as [s|] eqn:E;
    [|vm_compute in E; discriminate].
  assert (R : Pretty.reachable stale (chars "{a)") s)
    by (eapply steps_reachable; [constructor | exact E]).
  assert (F : Pretty.inner_test (chars "{a)") s = true
              /\ dump_at (chars "{a)") (Pretty.i s) = ")"
              /\ dump_at (chars "{a)") (Pretty.i s + 1) = NUL
              /\ Pretty.indentDist s = 3)
    by (vm_compute in E; injection E as <-; repeat split).
  destruct F as (Ht & Ec & En & Hd).
  destruct (C10_blank_last_line stale) as [_ H].
  destruct (H (chars "{a)") s R Ht Ec En) as (last & Er & El & _);
    [rewrite Hd; reflexivity|].
  exists s, last. split; [reflexivity|]. split; [exact Hd|].
  split; [exact Er|]. rewrite El, Hd. reflexivity.
Defined.

(** ** Termination *)

(** C7. Both functions return a result on every input: the loops end
    within the passes allowed, and a run that ends with any other number
    of passes ends in the same result. In [format_node_dump] every pass
    that goes back to the top of the loop has moved the cursor forward,
    the rewind notwithstanding; in [pretty_format_node_dump] every pass
    through the inner body moves the cursor forward. *)
Theorem C7_termination (line0 : buffer) (dump : list ascii) :
  (exists out,
      Wrap.format_node_dump line0 dump = Some out
      /\ forall fuel r,
           Wrap.loop fuel dump (Wrap.init line0) = Some r ->
           Wrap.finish r = out)
  /\ (exists out,
         Pretty.pretty_format_node_dump line0 dump = Some out
         /\ forall fuel s',
              Pretty.loop fuel dump (Pretty.init line0) = Some s' ->
              Pretty.finish s' = out)
  /\ (forall s s',
         Wrap.reachable line0 dump s -> Wrap.iter dump s = Wrap.Continue s' ->
         Wrap.i s < Wrap.i s')
  /\ (forall s,
         Pretty.reachable line0 dump s -> Pretty.inner_test dump s = true ->
         exists s',
           Pretty.step dump s = Pretty.Continue s'
           /\ Pretty.i s < Pretty.i s').
Proof.
  split; [|split; [|split]].
  - destruct (WrapFacts.wrap_run_final line0 dump) as (j & s' & E & _).
    exists (Wrap.finish (j, s')). split.
    + unfold Wrap.format_node_dump. now rewrite E.
    + intros fuel r Er.
      now rewrite (WrapFacts.wrap_loop_fuel_irrelevant dump _ _ _ _ _ Er E).
  - destruct (PrettyFacts.run_final line0 dump) as (s' & E & _).
    exists (Pretty.finish s'). split.
    + unfold Pretty.pretty_format_node_dump. now rewrite E.
    + intros fuel s1 E1.
      now rewrite (PrettyFacts.loop_fuel_irrelevant dump _ _ _ _ _ E1 E).
  - intros s s' R E.
    exact (WrapFacts.iter_progress dump s s'
             (WrapFacts.wrap_reachable_pos line0 dump s R) E).
  - intros s R Ht.
    destruct (pretty_body_step dump s
                (PrettyFacts.reachable_inv line0 dump s R) Ht)
      as (s' & E & _ & Hlt).
    exists s'. auto.
Qed.

(** C7 at work: the first pass of each function moves the cursor. *)
Lemma C7_termination_witness :
  (exists s',
      Pretty.step (chars "{a}") (Pretty.init stale) = Pretty.Continue s'
      /\ Pretty.i (Pretty.init stale) < Pretty.i s')
  /\ (exists s',
         Wrap.iter token_over_width (Wrap.init stale) = Wrap.Continue s'
         /\ Wrap.i (Wrap.init stale) < Wrap.i s').
Proof.
  split.
  - destruct (C7_termination stale (chars "{a}")) as (_ & _ & _ & B).
    apply B; [constructor | reflexivity].
  - destruct (C7_termination stale token_over_width) as (_ & _ & W & _).
    destruct (Wrap.iter token_over_width (Wrap.init stale)) as [s'|j s'] eqn:E.
    + exists s'. split; [reflexivity|]. apply W; [constructor | exact E].
    + vm_compute in E. discriminate.
Defined.

(** ** Close-groups *)

(** C5, amended. The inner body meets every close-group of the input.
    A close-group followed by another character, or by the end of the
    input, ends its line: the step appends the line being built with the
    close-group at its end, a line of the result, and the next line starts
    at the indentation. A close-group followed by a close-group stays in
    the line being built, and the two are in the same line of the result
    when the line has room for the second; when the first fills column 78
    the line is cut at the width bound between the two. And a run of
    [n >= 1] close-groups that fits into the line being built is appended
    with it as one line of the result. *)
Theorem C5_close_group_lines (line0 : buffer) (dump : list ascii) :
  (forall p,
      0 <= p -> (forall k, 0 <= k <= p -> dump_at dump k <> NUL) ->
      dump_at dump p = ")" ->
      exists s, Pretty.reachable line0 dump s /\ Pretty.i s = p
                /\ Pretty.inner_test dump s = true)
  /\ (forall s,
         Pretty.reachable line0 dump s -> Pretty.inner_test dump s = true ->
         dump_at dump (Pretty.i s) = ")" ->
         dump_at dump (Pretty.i s + 1) <> ")" ->
         exists s' more,
           Pretty.step dump s = Pretty.Continue s'
           /\ Pretty.str s'
              = Pretty.str s ++ [prefix (Pretty.line s) (Pretty.j s) ++ [")"]]
           /\ Pretty.j s' = Pretty.indentDist s'
           /\ prefix (Pretty.line s') (Pretty.j s')
              = repeat " " (Z.to_nat (Pretty.indentDist s'))
           /\ Pretty.indentLev s' = Pretty.indentLev s
           /\ Pretty.pretty_format_node_dump line0 dump
              = Some (Pretty.str s
                        ++ [prefix (Pretty.line s) (Pretty.j s) ++ [")"]]
                        ++ more))
  /\ (forall s,
         Pretty.reachable line0 dump s -> Pretty.inner_test dump s = true ->
         dump_at dump (Pretty.i s) = ")" ->
         dump_at dump (Pretty.i s + 1) = ")" ->
         exists s1,
           Pretty.step dump s = Pretty.Continue s1
           /\ Pretty.str s1 = Pretty.str s
           /\ Pretty.i s1 = Pretty.i s + 1 /\ Pretty.j s1 = Pretty.j s + 1
           /\ prefix (Pretty.line s1) (Pretty.j s1)
              = prefix (Pretty.line s) (Pretty.j s) ++ [")"]
           /\ (Pretty.j s + 1 < 78 ->
               exists l more,
                 Pretty.pretty_format_node_dump line0 dump
                 = Some (Pretty.str s
                           ++ [prefix (Pretty.line s) (Pretty.j s)
                                 ++ [")"; ")"] ++ l]
                           ++ more))
           /\ (Pretty.j s + 1 = 78 ->
               exists s2,
                 Pretty.step dump s1 = Pretty.Continue s2
                 /\ Pretty.str s2
                    = Pretty.str s
                      ++ [prefix (Pretty.line s) (Pretty.j s) ++ [")"]]
                 /\ Pretty.i s2 = Pretty.i s + 1
                 /\ Pretty.j s2 = Pretty.indentDist s2))
  /\ (forall s n,
         Pretty.reachable line0 dump s ->
         (1 <= n)%nat ->
         slice dump (Pretty.i s) n = repeat ")" n ->
         dump_at dump (Pretty.i s + Z.of_nat n) <> ")" ->
         Pretty.j s + Z.of_nat n <= 78 ->
         exists s' more,
           Pretty.steps n dump s = Some s'
           /\ Pretty.str s'
              = Pretty.str s
                ++ [prefix (Pretty.line s) (Pretty.j s) ++ repeat ")" n]
           /\ Pretty.j s' = Pretty.indentDist s'
           /\ Pretty.indentLev s' = Pretty.indentLev s
           /\ Pretty.pretty_format_node_dump line0 dump
              = Some (Pretty.str s
                        ++ [prefix (Pretty.line s) (Pretty.j s)
                              ++ repeat ")" n]
                        ++ more)).
Proof.
  split; [|split; [|split]].
  - intros p Hp Hne Ec.
    apply (PrettyLines.body_meets line0 dump
             (S (Z.to_nat (PrettyView.measure dump (Pretty.init line0))))
             (Pretty.init line0));
      [constructor | | exact Hp | exact Hne | rewrite Ec; discriminate].
    pose proof (PrettyFacts.measure_nonneg dump (Pretty.init line0)
                  (PrettyFacts.reachable_pos line0 dump _
                     (Pretty.reach_init line0 dump))).
    lia.
  - intros s R T Ec En.
    exact (PrettyLines.close_group_ends_line line0 dump s R T Ec En).
  - intros s R T Ec En.
    exact (PrettyLines.close_group_pair line0 dump s R T Ec En).
  - intros s n R Hn Hs Hend Hfit.
    destruct (PrettyFacts.close_group_run dump n s
                (PrettyFacts.reachable_inv line0 dump s R) Hn)
      as (s' & E & _ & Es & Ej & El); [ | exact Hend | exact Hfit | ].
    + intros k Hk. rewrite <- (Z2Nat.id k) by lia.
      rewrite <- slice_nth with (n := n) by lia. rewrite Hs.
      apply nth_repeat_lt. lia.
    + destruct (PrettyFacts.reachable_output_prefix line0 dump s'
                  (steps_reachable line0 dump n s s' R E)) as (more & Em).
      exists s', more. rewrite Em, Es, <- app_assoc. auto.
Qed.

(** C5 at work: in 76 characters followed by [")))x"] the first two
    close-groups share the line of 78 characters, and the width bound
    falls between the second and the third. *)
Lemma C5_close_group_lines_witness :
  Pretty.pretty_format_node_dump stale close_groups_across_width
  = Some [repeat "a" 76 ++ chars "))"; chars ")"; chars "x"]
  /\ exists s s1 l more,
       Pretty.steps 76 close_groups_across_width (Pretty.init stale) = Some s
       /\ Pretty.j s = 76
       /\ prefix (Pretty.line s) (Pretty.j s) = repeat "a" 76
       /\ Pretty.step close_groups_across_width s = Pretty.Continue s1
       /\ Pretty.str s1 = Pretty.str s
       /\ Pretty.pretty_format_node_dump stale close_groups_across_width
          = Some (Pretty.str s
                    ++ [prefix (Pretty.line s) (Pretty.j s)
                          ++ [")"; ")"] ++ l]
                    ++ more).
Proof.
  split; [vm_compute; reflexivity|].
  destruct (Pretty.steps 76 close_groups_across_width (Pretty.init stale))
    as [s|] eqn:E; [|vm_compute in E; discriminate].
  assert (R : Pretty.reachable stale close_groups_across_width s)
    by (eapply steps_reachable; [constructor | exact E]).
  vm_compute in E. injection E as <-.
  destruct (C5_close_group_lines stale close_groups_across_width)
    as (_ & _ & H & _).
  destruct (H _ R) as (s1 & E1 & S1 & _ & _ & _ & Hroom & _);
    [reflexivity | reflexivity | reflexivity |].
  destruct Hroom as (l & more & Er); [reflexivity|].
  eexists _, s1, l, more.
  split; [reflexivity|]. split; [reflexivity|].
  split; [reflexivity|]. split; [exact E1|]. split; [exact S1 | exact Er].
Defined.

(** C5, as stated, fails: after 77 other characters the first of two
    consecutive close-groups fills the line, which is cut at the width
    bound, and the second starts the next line. *)
Lemma C5_close_group_lines_counterexample :
  Pretty.pretty_format_node_dump stale close_groups_at_width
  = Some [repeat "a" 77 ++ [")"]; [")"]]
  /\ ~ (forall s n,
          Pretty.reachable stale close_groups_at_width s ->
          (1 <= n)%nat ->
          slice close_groups_at_width (Pretty.i s) n = repeat ")" n ->
          dump_at close_groups_at_width (Pretty.i s + Z.of_nat n) <> ")" ->
          exists s',
            Pretty.steps n close_groups_at_width s = Some s'
            /\ Pretty.str s'
               = Pretty.str s
                 ++ [prefix (Pretty.line s) (Pretty.j s) ++ repeat ")" n]).
Proof.
  split; [vm_compute; reflexivity|].
  intros H.
  destruct (Pretty.steps 77 close_groups_at_width (Pretty.init stale))
    as [s|] eqn:E; [|vm_compute in E; discriminate].
  assert (R : Pretty.reachable stale close_groups_at_width s)
    by (eapply steps_reachable; [constructor | exact E]).
  vm_compute in E. injection E as <-.
  destruct (H _ 2%nat R) as (s' & E' & Hs');
    [apply le_S, le_n | reflexivity | discriminate |].
  vm_compute in E'. injection E' as <-.
  vm_compute in Hs'. discriminate Hs'.
Qed.

(** ** Nesting depth *)

(** C8. The nesting depths met at the marker characters when the function
    runs on its own output, the line breaks read as spaces, are those met
    in the run on the input; and the marker characters of the output are
    those of the input, in the same order. *)
Theorem C8_nesting_depths_kept (line0 : buffer) (dump : list ascii) :
  exists out,
    Pretty.pretty_format_node_dump line0 dump = Some out
    /\ Pretty.nesting_depths line0 (respace (text_of out))
       = Pretty.nesting_depths line0 dump
    /\ filter Pretty.is_marker (text_of out)
       = filter Pretty.is_marker (c_string dump).
Proof.
  destruct (pretty_result line0 dump) as (s' & E & F).
  exists (Pretty.finish s'). split; [exact E|].
  assert (K : filter Pretty.is_marker (text_of (Pretty.finish s'))
              = filter Pretty.is_marker (c_string dump))
    by (apply (PrettyFacts.final_kept line0 dump); [reflexivity .. | exact F]).
  split; [|exact K].
  rewrite !PrettyFacts.nesting_depths_fold.
  rewrite c_string_id, PrettyFacts.filter_marker_respace, K; [reflexivity|].
  apply PrettyFacts.respace_no_NUL, PrettyFacts.text_of_no_NUL.
  pose proof (PrettyFacts.final_lines_ok line0 dump s' F) as H.
  eapply Forall_impl; [|exact H]. intros l [_ Hl]. exact Hl.
Qed.

(** ** Tokens *)

(** C4, amended. For every input, the input is the lines of
    the result, in order, each followed by nothing or by the one space
    consumed at its break. When no pass takes the branch that finds no
    space, and so whenever every token of the input is shorter than 78
    characters, the token stream of the result, read by splitting on
    white space (or on any class of characters that has the space and the
    line break), is that of the input. *)
Theorem C4_token_stream (line0 : buffer) (dump : list ascii) :
  exists out,
    Wrap.format_node_dump line0 dump = Some out
    /\ (exists seps,
           length seps = length out
           /\ Forall (fun sp => sp = [] \/ sp = [" "]) seps
           /\ c_string dump = weave out seps)
    /\ ((forall s, Wrap.reachable line0 dump s ->
                   Wrap.no_space_found dump s = false) ->
        forall sep, sep " " = true -> sep newline = true ->
                    words_by sep (text_of out) = words_by sep (c_string dump))
    /\ (forallb (fun t => (length t <? 78)%nat) (tokens (c_string dump))
        = true ->
        words (text_of out) = words (c_string dump)).
Proof.
  destruct (wrap_result line0 dump) as (j & s' & E & F).
  exists (Wrap.finish (j, s')). split; [exact E|].
  split; [exact (WrapFacts.final_weave line0 dump j s' F)|].
  assert (W : (forall s, Wrap.reachable line0 dump s ->
                         Wrap.no_space_found dump s = false) ->
              forall sep, sep " " = true -> sep newline = true ->
              words_by sep (text_of (Wrap.finish (j, s')))
              = words_by sep (c_string dump))
    by (intros H sep Hsp Hnl;
        exact (WrapFacts.final_words_by line0 dump H sep j s' Hsp Hnl F)).
  split; [exact W|].
  intros Hshort. apply W; [|reflexivity ..]. intros s R.
  destruct (Wrap.no_space_found dump s) eqn:Hn; [|reflexivity].
  destruct (WrapFacts.no_space_long_token line0 dump s R Hn) as (t & Hin & Hl).
  rewrite forallb_forall in Hshort. specialize (Hshort t Hin).
  apply Nat.ltb_lt in Hshort. unfold Wrap.LINELEN in Hl. lia.
Qed.

(** C4 at work: twenty short tokens, wrapped into two lines. *)
Lemma C4_token_stream_witness :
  forallb (fun t => (length t <? 78)%nat) (tokens (c_string short_tokens))
  = true
  /\ exists out,
       Wrap.format_node_dump stale short_tokens = Some out
       /\ length out = 2%nat
       /\ words (text_of out) = words (c_string short_tokens).
Proof.
  split; [vm_compute; reflexivity|].
  destruct (C4_token_stream stale short_tokens) as (out & E & _ & _ & H).
  exists out. split; [exact E|]. split.
  - vm_compute in E. injection E as <-. reflexivity.
  - apply H. vm_compute. reflexivity.
Defined.

(** C4, as stated, fails: a token of 79 characters is cut after the 78th,
    and the result has two tokens where the input has one. *)
Lemma C4_token_stream_counterexample :
  option_map (fun out => words (text_of out))
             (Wrap.format_node_dump stale token_over_width)
  <> Some (words (c_string token_over_width)).
Proof. vm_compute. discriminate. Qed.

(** C6, amended. A pass that finds no space appends the full
    buffer of 78 characters, a line of the result, and goes on right
    behind it; the 78 characters after the first of the buffer, the break
    among them, are neither spaces nor the end, so a token of at least 78
    characters is cut. Every other pass that appends a line consumes a
    space at its break. And a token longer than 78 characters makes some
    pass find no space. *)
Theorem C6_breaks_inside_tokens (line0 : buffer) (dump : list ascii) :
  (forall s,
      Wrap.reachable line0 dump s -> Wrap.no_space_found dump s = true ->
      (exists s',
          Wrap.iter dump s = Wrap.Continue s'
          /\ Wrap.str s' = Wrap.str s ++ [slice dump (Wrap.i s) 78]
          /\ Wrap.i s' = Wrap.i s + 78
          /\ forall x, 1 <= x <= 78 ->
                       dump_at dump (Wrap.i s + x) <> " "
                       /\ dump_at dump (Wrap.i s + x) <> NUL)
      /\ (exists more,
             Wrap.format_node_dump line0 dump
             = Some (Wrap.str s ++ [slice dump (Wrap.i s) 78] ++ more))
      /\ exists t, In t (tokens (c_string dump)) /\ (78 <= length t)%nat)
  /\ (forall s s',
         Wrap.reachable line0 dump s -> Wrap.iter dump s = Wrap.Continue s' ->
         Wrap.no_space_found dump s = false ->
         dump_at dump (Wrap.i s' - 1) = " "
         /\ exists len,
              1 <= len <= 78
              /\ Wrap.str s'
                 = Wrap.str s ++ [slice dump (Wrap.i s) (Z.to_nat len)]
              /\ Wrap.i s' = Wrap.i s + len + 1)
  /\ (forall t,
         In t (tokens (c_string dump)) -> (78 < length t)%nat ->
         exists s, Wrap.reachable line0 dump s
                   /\ Wrap.no_space_found dump s = true).
Proof.
  split; [|split].
  - intros s R Hn. split; [|split].
    + exact (WrapFacts.no_space_pass line0 dump s R Hn).
    + destruct (WrapFacts.no_space_pass line0 dump s R Hn)
        as (s' & E & Es & _).
      destruct (WrapFacts.wrap_output_prefix line0 dump s'
                  (Wrap.reach_iter line0 dump s s' R E)) as (more & Em).
      exists more. rewrite Em. f_equal.
      change (Z.to_nat Wrap.LINELEN) with 78%nat in Es.
      now rewrite Es, <- app_assoc.
    + destruct (WrapFacts.no_space_long_token line0 dump s R Hn)
        as (t & Hin & Hl).
      exists t. split; [exact Hin|]. unfold Wrap.LINELEN in Hl. lia.
  - intros s s' R E Hn. exact (WrapFacts.space_pass line0 dump s s' R E Hn).
  - intros t Hin Hl. apply (WrapFacts.long_token_no_space line0 dump t Hin).
    unfold Wrap.LINELEN. lia.
Qed.

(** C6 at work: the first pass on a space and a token of 78 characters
    finds no space and cuts the token before its last character. *)
Lemma C6_breaks_inside_tokens_witness :
  Wrap.no_space_found token_of_width (Wrap.init stale) = true
  /\ exists s',
       Wrap.iter token_of_width (Wrap.init stale) = Wrap.Continue s'
       /\ Wrap.str s' = [chars " " ++ repeat "a" 77]
       /\ Wrap.i s' = 78.
Proof.
  split; [vm_compute; reflexivity|].
  destruct (C6_breaks_inside_tokens stale token_of_width) as (H & _ & _).
  destruct (H (Wrap.init stale)) as ((s' & E & Hs & Hi & _) & _ & _);
    [constructor | vm_compute; reflexivity |].
  exists s'. split; [exact E|]. split; [exact Hs | exact Hi].
Defined.

(** C6, as stated, fails: on a space and a token of 78 characters a pass
    finds no space, and the token is cut, though no token of the input is
    longer than 78 characters. *)
Lemma C6_breaks_inside_tokens_counterexample :
  ~ ((exists s, Wrap.reachable stale token_of_width s
                /\ Wrap.no_space_found token_of_width s = true)
     <-> (exists t, In t (tokens (c_string token_of_width))
                    /\ (78 < length t)%nat)).
Proof.
  intros [H _].
  destruct H as (t & Hin & Hl).
  - exists (Wrap.init stale). split; [constructor | vm_compute; reflexivity].
  - vm_compute in Hin. destruct Hin as [<-|[]].
    vm_compute in Hl. repeat apply le_S_n in Hl. inversion Hl.
Qed.
